(** * An in-memory key/value store with expiry, view counters and a bounded
      stack of recently written keys

    The repository holds two implementations of the same [Store] in
    [store.go]: the repaired one (first part of the file, pointer receivers,
    [map[string]*Item], atomic view counters) and the original exercise
    (second part, value receivers, [map[string]Item]).  Both are embedded
    here, each in its own module ([V1] and [V2]), on top of a small
    state-and-failure monad in which a call either returns, panics, or waits
    for a lock that nobody will release. *)

From stdpp Require Import base option list strings gmap fin_maps.
From Stdlib Require Import ZArith Lia.

Local Open Scope Z_scope.
Local Open Scope string_scope.

(** ** Time

    A [time.Time] is an instant; it is modelled by the number of nanoseconds
    that separate it from the zero [Time], so that the zero value of the type
    is [0] and [time.Duration] is a number of nanoseconds.  The clock is not
    read by the model: every operation that calls [time.Now()] takes the
    reading as an argument. *)

Definition Time : Type := Z.
Definition Duration : Type := Z.

Definition zeroTime : Time := 0.
Definition IsZero (t : Time) : bool := bool_decide (t = 0).
Definition After (t u : Time) : bool := bool_decide (u < t).
Definition Before (t u : Time) : bool := bool_decide (t < u).
Definition Add (t : Time) (d : Duration) : Time := t + d.
Definition Second : Duration := 1000000000.

(** Fixed-width integers: [uint64] counters and [int64] durations wrap. *)
Definition wrap_u64 (z : Z) : Z := z mod 2 ^ 64.
Definition wrap_i64 (z : Z) : Z := (z + 2 ^ 63) mod 2 ^ 64 - 2 ^ 63.

(** ** Outcomes and the state monad *)

Inductive outcome (A : Type) : Type :=
| Done (a : A)
| Panic
| Blocked.
Arguments Done {A} a.
Arguments Panic {A}.
Arguments Blocked {A}.

Definition M (S A : Type) : Type := S -> outcome (A * S).

Definition ret {S A} (a : A) : M S A := fun s => Done (a, s).

Definition bind {S A B} (m : M S A) (k : A -> M S B) : M S B :=
  fun s =>
    match m s with
    | Done (a, s') => k a s'
    | Panic => Panic
    | Blocked => Blocked
    end.

Definition gets {S A} (f : S -> A) : M S A := fun s => Done (f s, s).
Definition modify {S} (f : S -> S) : M S unit := fun s => Done (tt, f s).
Definition panic {S A} : M S A := fun _ => Panic.

Declare Scope go_scope.
Delimit Scope go_scope with go.
Notation "x <- m ;; k" := (bind m (fun x => k))
  (at level 100, m at next level, right associativity) : go_scope.
Notation "m ;; k" := (bind m (fun _ => k))
  (at level 100, right associativity) : go_scope.

(** ** Locks

    [sync.Mutex] and [sync.RWMutex] seen from one goroutine: acquiring a lock
    that is held never succeeds, releasing one that is not held is a fatal
    error. *)

Inductive Mutex : Type := Unlocked | Locked.

Inductive RWMutex : Type :=
| Free
| Reading (n : nat)   (* held by [S n] readers *)
| Writing.

Definition Mutex_Lock (l : Mutex) : outcome Mutex :=
  match l with Unlocked => Done Locked | Locked => Blocked end.

Definition Mutex_Unlock (l : Mutex) : outcome Mutex :=
  match l with Locked => Done Unlocked | Unlocked => Panic end.

Definition RWMutex_Lock (l : RWMutex) : outcome RWMutex :=
  match l with Free => Done Writing | _ => Blocked end.

Definition RWMutex_Unlock (l : RWMutex) : outcome RWMutex :=
  match l with Writing => Done Free | _ => Panic end.

Definition RWMutex_RLock (l : RWMutex) : outcome RWMutex :=
  match l with
  | Free => Done (Reading 0)
  | Reading n => Done (Reading (S n))
  | Writing => Blocked
  end.

Definition RWMutex_RUnlock (l : RWMutex) : outcome RWMutex :=
  match l with
  | Reading 0 => Done Free
  | Reading (S n) => Done (Reading n)
  | _ => Panic
  end.

(** A lock operation applied to a field of the state. *)
Definition on_field {S L} (get : S -> L) (set : L -> S -> S)
    (f : L -> outcome L) : M S unit :=
  fun s =>
    match f (get s) with
    | Done l => Done (tt, set l s)
    | Panic => Panic
    | Blocked => Blocked
    end.

(** [returns o a]: the call whose outcome is [o] returned [a]. *)
Definition returns {S A} (o : outcome (A * S)) (a : A) : Prop :=
  exists s, o = Done (a, s).

(** ** Slices of keys *)

Definition slice_last (l : list string) : string := default "" (last l).
Definition slice_init (l : list string) : list string :=
  take (length l - 1)%nat l.

(** [for _, x := range l { acc = body x acc }] *)
Fixpoint for_range {S A B} (l : list A) (body : A -> B -> M S B) (acc : B)
    : M S B :=
  match l with
  | [] => ret acc
  | x :: rest => bind (body x acc) (for_range rest body)
  end.

(** * The repaired store (first part of [store.go]) *)

Module V1.

Local Open Scope go_scope.

(** [Views] is an [atomic.Uint64]. *)
Record Item : Type := {
  Value : string;
  ExpiresAt : Time;
  Views : Z
}.

Record ItemDTO : Type := {
  dtoValue : string;
  dtoExpiresAt : Time;
  dtoViews : Z
}.

(** Addresses of heap cells: a [*Item] is the address of an [Item], a
    [map[string]ItemDTO] handed to a caller is the address of a map. *)
Abbreviation loc := positive.

Record Store : Type := {
  mu : RWMutex;
  data : gmap string loc;          (* map[string]*Item *)
  stackMutex : Mutex;
  lastKeys : list string
}.

(** The memory a [*Store] lives in: the store itself, the [Item] cells its
    map points to, the maps returned by [FullList], and the next free
    address. *)
Record Mem : Type := {
  store : Store;
  items : gmap loc Item;
  lists : gmap loc (gmap string ItemDTO);
  brk : loc
}.

Definition set_store (f : Store -> Store) (m : Mem) : Mem :=
  {| store := f (store m); items := items m; lists := lists m; brk := brk m |}.
Definition set_items (f : gmap loc Item -> gmap loc Item) (m : Mem) : Mem :=
  {| store := store m; items := f (items m); lists := lists m; brk := brk m |}.
Definition set_lists
    (f : gmap loc (gmap string ItemDTO) -> gmap loc (gmap string ItemDTO))
    (m : Mem) : Mem :=
  {| store := store m; items := items m; lists := f (lists m); brk := brk m |}.
Definition set_brk (p : loc) (m : Mem) : Mem :=
  {| store := store m; items := items m; lists := lists m; brk := p |}.

Definition with_mu (l : RWMutex) (s : Store) : Store :=
  {| mu := l; data := data s; stackMutex := stackMutex s;
     lastKeys := lastKeys s |}.
Definition with_data (d : gmap string loc) (s : Store) : Store :=
  {| mu := mu s; data := d; stackMutex := stackMutex s;
     lastKeys := lastKeys s |}.
Definition with_stackMutex (l : Mutex) (s : Store) : Store :=
  {| mu := mu s; data := data s; stackMutex := l; lastKeys := lastKeys s |}.
Definition with_lastKeys (l : list string) (s : Store) : Store :=
  {| mu := mu s; data := data s; stackMutex := stackMutex s; lastKeys := l |}.

(** [s.mu.Lock()] and friends *)
Definition mu_on (f : RWMutex -> outcome RWMutex) : M Mem unit :=
  on_field (fun m => mu (store m)) (fun l => set_store (with_mu l)) f.
Definition stackMutex_on (f : Mutex -> outcome Mutex) : M Mem unit :=
  on_field (fun m => stackMutex (store m))
           (fun l => set_store (with_stackMutex l)) f.

(** [&Item{...}] *)
Definition new_Item (it : Item) : M Mem loc :=
  fun m =>
    Done (brk m, set_brk (Pos.succ (brk m))
                   (set_items (insert (brk m) it) m)).

(** [*p]; the model has no cell for an address that was never allocated. *)
Definition load (p : loc) : M Mem Item :=
  fun m => match items m !! p with Some it => Done (it, m) | None => Panic end.

(** [p.Views.Add(delta)] *)
Definition Views_Add (p : loc) (delta : Z) : M Mem unit :=
  it <- load p ;;
  modify (set_items (insert p
    {| Value := Value it; ExpiresAt := ExpiresAt it;
       Views := wrap_u64 (Views it + delta) |})).

(** [make(map[string]ItemDTO, n)] and [newData[key] = v] *)
Definition make_list : M Mem loc :=
  fun m =>
    Done (brk m, set_brk (Pos.succ (brk m)) (set_lists (insert (brk m) ∅) m)).
Definition list_assign (l : loc) (key : string) (v : ItemDTO) : M Mem unit :=
  fun m =>
    match lists m !! l with
    | Some d => Done (tt, set_lists (insert l (<[key := v]> d)) m)
    | None => Panic
    end.

Definition data_lookup (key : string) : M Mem (option loc) :=
  gets (fun m => data (store m) !! key).
Definition data_assign (key : string) (p : loc) : M Mem unit :=
  modify (set_store (fun s => with_data (<[key := p]> (data s)) s)).
Definition data_delete (key : string) : M Mem unit :=
  modify (set_store (fun s => with_data (delete key (data s)) s)).

(** [NewStore]: a fresh [Store] in an empty memory. *)
Definition NewStore : Mem :=
  {| store := {| mu := Free; data := ∅; stackMutex := Unlocked;
                 lastKeys := [] |};
     items := ∅; lists := ∅; brk := 1%positive |}.

Definition push (value : string) : M Mem unit :=
  stackMutex_on Mutex_Lock ;;
  modify (set_store (fun s => with_lastKeys (lastKeys s ++ [value])%list s)) ;;
  n <- gets (fun m => length (lastKeys (store m))) ;;
  (if bool_decide (30 < n)%nat
   then modify (set_store (fun s => with_lastKeys (drop 1 (lastKeys s)) s))
   else ret tt) ;;
  stackMutex_on Mutex_Unlock.

Definition pop : M Mem unit :=
  stackMutex_on Mutex_Lock ;;
  n <- gets (fun m => length (lastKeys (store m))) ;;
  if bool_decide (n = 0%nat)
  then stackMutex_on Mutex_Unlock
  else
    modify (set_store (fun s => with_lastKeys (slice_init (lastKeys s)) s)) ;;
    stackMutex_on Mutex_Unlock.

Definition top : M Mem string :=
  stackMutex_on Mutex_Lock ;;
  n <- gets (fun m => length (lastKeys (store m))) ;;
  r <- (if bool_decide (n = 0%nat)
        then ret ""
        else
          l <- gets (fun m => lastKeys (store m)) ;;
          match l !! (length l - 1)%nat with
          | Some k => ret k
          | None => panic
          end) ;;
  stackMutex_on Mutex_Unlock ;;
  ret r.

(** [now] is the reading of [time.Now()], taken only when [ttl > 0]. *)
Definition Set_ (key value : string) (ttl : Duration) (now : Time)
    : M Mem unit :=
  let expires := if bool_decide (0 < ttl) then Add now ttl else zeroTime in
  mu_on RWMutex_Lock ;;
  p <- new_Item {| Value := value; ExpiresAt := expires; Views := 0 |} ;;
  data_assign key p ;;
  mu_on RWMutex_Unlock ;;
  push key.

Definition RetrieveLastKey : M Mem string :=
  stackMutex_on Mutex_Lock ;;
  l <- gets (fun m => lastKeys (store m)) ;;
  if bool_decide (length l = 0%nat)
  then
    stackMutex_on Mutex_Unlock ;;
    ret ""
  else
    match l !! (length l - 1)%nat with
    | None => panic
    | Some k =>
        modify (set_store (with_lastKeys (take (length l - 1)%nat l))) ;;
        stackMutex_on Mutex_Unlock ;;
        mu_on RWMutex_Lock ;;
        data_delete k ;;
        mu_on RWMutex_Unlock ;;
        ret k
    end.

Definition Size : M Mem Z :=
  mu_on RWMutex_RLock ;;
  l <- gets (fun m => Z.of_nat (size (data (store m)))) ;;
  mu_on RWMutex_RUnlock ;;
  ret l.

(** [now] is the reading of [time.Now()] in the expiry test. *)
Definition Get (key : string) (now : Time) : M Mem (string * bool) :=
  mu_on RWMutex_RLock ;;
  r <- data_lookup key ;;
  mu_on RWMutex_RUnlock ;;
  match r with
  | None => ret ("", false)
  | Some item =>
      it <- load item ;;
      if negb (IsZero (ExpiresAt it)) && After now (ExpiresAt it)
      then
        mu_on RWMutex_Lock ;;
        cur <- data_lookup key ;;
        (match cur with
         | Some curValue =>
             if bool_decide (curValue = item) then data_delete key else ret tt
         | None => ret tt
         end) ;;
        mu_on RWMutex_Unlock ;;
        ret ("", false)
      else
        Views_Add item 1 ;;
        ret (Value it, true)
  end.

Definition GetViews (key : string) : M Mem Z :=
  mu_on RWMutex_RLock ;;
  r <- data_lookup key ;;
  mu_on RWMutex_RUnlock ;;
  match r with
  | None => ret 0
  | Some item => it <- load item ;; ret (Views it)
  end.

Definition Delete (key : string) : M Mem unit :=
  mu_on RWMutex_Lock ;;
  data_delete key ;;
  mu_on RWMutex_Unlock.

(** The two loops range over a Go map, whose order is unspecified; the model
    walks [map_to_list], and neither loop's result depends on the order. *)
Definition FullList : M Mem loc :=
  mu_on RWMutex_RLock ;;
  newData <- make_list ;;
  d <- gets (fun m => data (store m)) ;;
  for_range (map_to_list d)
    (fun '(key, val) (_ : unit) =>
       it <- load val ;;
       list_assign newData key
         {| dtoValue := Value it; dtoExpiresAt := ExpiresAt it;
            dtoViews := Views it |})
    tt ;;
  mu_on RWMutex_RUnlock ;;
  ret newData.

(** One firing of [cleanTicker.C] in [Cleanup]; [now] is [time.Now()]. *)
Definition Cleanup_tick (now : Time) : M Mem unit :=
  mu_on RWMutex_RLock ;;
  d <- gets (fun m => data (store m)) ;;
  expiredKeys <-
    for_range (map_to_list d)
      (fun '(k, item) (expiredKeys : list string) =>
         it <- load item ;;
         if negb (IsZero (ExpiresAt it)) && After now (ExpiresAt it)
         then ret (expiredKeys ++ [k])%list
         else ret expiredKeys)
      [] ;;
  mu_on RWMutex_RUnlock ;;
  if bool_decide (length expiredKeys = 0%nat)
  then ret tt
  else
    mu_on RWMutex_Lock ;;
    for_range expiredKeys (fun v (_ : unit) => data_delete v) tt ;;
    mu_on RWMutex_Unlock.

(** What the [select] of [Cleanup] receives. *)
Inductive event : Type :=
| CtxDone
| Tick (now : Time).

(** [Cleanup] on a finite prefix of events: it returns at the first
    [CtxDone]; at the end of the prefix it is parked in the [select]. *)
Fixpoint Cleanup (evs : list event) : M Mem unit :=
  match evs with
  | [] => ret tt
  | CtxDone :: _ => ret tt
  | Tick now :: rest => Cleanup_tick now ;; Cleanup rest
  end.

Definition Reset : M Mem unit :=
  stackMutex_on Mutex_Lock ;;
  modify (set_store (with_lastKeys [])) ;;
  stackMutex_on Mutex_Unlock ;;
  mu_on RWMutex_Lock ;;
  modify (set_store (with_data ∅)) ;;
  mu_on RWMutex_Unlock.

(** ** Runs of operations, and what stays true along them *)

Inductive op : Type :=
| OSet (key value : string) (ttl : Duration) (now : Time)
| OGet (key : string) (now : Time)
| OGetViews (key : string)
| ODelete (key : string)
| OSize
| OFullList
| ORetrieveLastKey
| OReset
| OTick (now : Time)
| OPush (value : string)
| OPop
| OTop.

Definition exec (o : op) : M Mem unit :=
  match o with
  | OSet key value ttl now => Set_ key value ttl now
  | OGet key now => Get key now ;; ret tt
  | OGetViews key => GetViews key ;; ret tt
  | ODelete key => Delete key
  | OSize => Size ;; ret tt
  | OFullList => FullList ;; ret tt
  | ORetrieveLastKey => RetrieveLastKey ;; ret tt
  | OReset => Reset
  | OTick now => Cleanup_tick now
  | OPush value => push value
  | OPop => pop
  | OTop => top ;; ret tt
  end.

Fixpoint run (os : list op) : M Mem unit :=
  match os with
  | [] => ret tt
  | o :: rest => exec o ;; run rest
  end.

(** [Get key] calls of a run that found the key. *)
Definition is_hit (key : string) (o : op) (m : Mem) : bool :=
  match o with
  | OGet k now =>
      match Get k now m with
      | Done ((_, found), _) => bool_decide (k = key) && found
      | _ => false
      end
  | _ => false
  end.

Fixpoint hits (key : string) (os : list op) (m : Mem) : nat :=
  match os with
  | [] => 0
  | o :: rest =>
      match exec o m with
      | Done (_, m') => ((if is_hit key o m then 1 else 0) + hits key rest m')%nat
      | _ => 0%nat
      end
  end.

Definition sets_key (key : string) (o : op) : bool :=
  match o with
  | OSet k _ _ _ => bool_decide (k = key)
  | _ => false
  end.

(** No lock is held between two calls. *)
Definition idle (m : Mem) : Prop :=
  mu (store m) = Free /\ stackMutex (store m) = Unlocked.

(** The entry the table holds for [key]. *)
Definition entry (m : Mem) (key : string) : option Item :=
  match data (store m) !! key with
  | Some p => items m !! p
  | None => None
  end.

(** The memory invariant: every pointer of the table points to an allocated
    cell, no cell is pointed to by two keys, and allocated addresses lie
    below [brk]. *)
Record wf (m : Mem) : Prop := {
  wf_idle : idle m;
  wf_cells : forall k p, data (store m) !! k = Some p -> is_Some (items m !! p);
  wf_unshared : forall k1 k2 p,
    data (store m) !! k1 = Some p -> data (store m) !! k2 = Some p -> k1 = k2;
  wf_items : forall p, is_Some (items m !! p) -> (p < brk m)%positive;
  wf_lists : forall p, is_Some (lists m !! p) -> (p < brk m)%positive
}.

Definition bounded (m : Mem) : Prop :=
  (length (lastKeys (store m)) <= 30)%nat.

(** The expiry test of [Get] and [Cleanup]. *)
Definition expired (now : Time) (it : Item) : bool :=
  negb (IsZero (ExpiresAt it)) && After now (ExpiresAt it).

(** What [push] leaves in the stack. *)
Definition pushed (value : string) (l : list string) : list string :=
  if bool_decide (30 < length (l ++ [value]))%nat
  then drop 1 (l ++ [value])
  else (l ++ [value])%list.

Definition dto (it : Item) : ItemDTO :=
  {| dtoValue := Value it; dtoExpiresAt := ExpiresAt it;
     dtoViews := Views it |}.

(** What [FullList] copies out of the table. *)
Definition snapshot (m : Mem) : gmap string ItemDTO :=
  omap (fun p => dto <$> items m !! p) (data (store m)).

(** The keys [Cleanup] collects from the pairs it ranges over, and the table
    once they are deleted. *)
Definition expired_keys (now : Time) (its : gmap loc Item)
    (kvs : list (string * loc)) : list string :=
  omap (fun kp =>
          match its !! kp.2 with
          | Some it => if expired now it then Some kp.1 else None
          | None => None
          end) kvs.

Definition delete_keys (ks : list string) (d : gmap string loc)
    : gmap string loc :=
  foldl (fun d k => delete k d) d ks.

Definition swept (now : Time) (m : Mem) : gmap string loc :=
  delete_keys (expired_keys now (items m) (map_to_list (data (store m))))
              (data (store m)).

(** An entry after [n] more recorded views. *)
Definition viewed (n : Z) (it : Item) : Item :=
  {| Value := Value it; ExpiresAt := ExpiresAt it;
     Views := wrap_u64 (Views it + n) |}.

(** The last [n] elements of a slice. *)
Definition lastn (n : nat) (l : list string) : list string :=
  drop (length l - n) l.

(** A [Set] call from its arguments, and the key it writes. *)
Definition OSet_of (a : string * string * Duration * Time) : op :=
  OSet a.1.1.1 a.1.1.2 a.1.2 a.2.
Definition key_of (a : string * string * Duration * Time) : string :=
  a.1.1.1.

(** A short run on a new store, used to exercise the statements below. *)
Definition demo_os : list op :=
  [OGet "a" 11; OGet "b" 12; OSet "b" "2" 0 13; OGet "a" 14; OTick 15;
   OGet "a" 16].
Definition after (c : M Mem unit) (m : Mem) : Mem :=
  match c m with Done (_, m') => m' | _ => m end.
Definition demo_m1 : Mem := after (Set_ "a" "1" 0 10) NewStore.
Definition demo_m2 : Mem := after (run demo_os) demo_m1.
Definition demo_m3 : Mem :=
  after (run [OSet "a" "1" 10 100; OGet "a" 105]) NewStore.
Definition demo_args : list (string * string * Duration * Time) :=
  (fun n => (String (Ascii.ascii_of_nat (48 + n)) "", "v", 0, Z.of_nat n))
    <$> seq 0 31.

(** [mu] is read-locked by [S n] other goroutines and the stack lock is
    free: the state a call finds while readers are at work. *)
Definition readers_hold (n : nat) (m : Mem) : Prop :=
  mu (store m) = Reading n /\ stackMutex (store m) = Unlocked /\
  forall k p, data (store m) !! k = Some p -> is_Some (items m !! p).

(** [demo_m3] while two other goroutines hold read locks on [mu]. *)
Definition demo_m4 : Mem := set_store (with_mu (Reading 1)) demo_m3.
Definition demo_item : Item :=
  {| Value := "1"; ExpiresAt := 110; Views := 1 |}.

(** The two lock sections of one firing of the ticker, which
    [Cleanup_tick] runs back to back: the scan under the read lock and the
    deletion under the write lock.  Between them [mu] is free, and the
    collected keys are deleted without a second look at their entries. *)
Definition Cleanup_collect (now : Time) : M Mem (list string) :=
  mu_on RWMutex_RLock ;;
  d <- gets (fun m => data (store m)) ;;
  expiredKeys <-
    for_range (map_to_list d)
      (fun '(k, item) (expiredKeys : list string) =>
         it <- load item ;;
         if negb (IsZero (ExpiresAt it)) && After now (ExpiresAt it)
         then ret (expiredKeys ++ [k])%list
         else ret expiredKeys)
      [] ;;
  mu_on RWMutex_RUnlock ;;
  ret expiredKeys.

Definition Cleanup_delete (expiredKeys : list string) : M Mem unit :=
  if bool_decide (length expiredKeys = 0%nat)
  then ret tt
  else
    mu_on RWMutex_Lock ;;
    for_range expiredKeys (fun v (_ : unit) => data_delete v) tt ;;
    mu_on RWMutex_Unlock.

(** What sweepers do between two calls of another goroutine: a firing
    handled from scan to deletion, or the deletion of a firing whose scan
    ran earlier and collected [expiredKeys]. *)
Inductive sweep : Type :=
| Whole (now : Time)
| Late (expiredKeys : list string).

Fixpoint sweeps (l : list sweep) : M Mem unit :=
  match l with
  | [] => ret tt
  | Whole now :: rest => Cleanup_tick now ;; sweeps rest
  | Late expiredKeys :: rest => Cleanup_delete expiredKeys ;; sweeps rest
  end.

End V1.

(** * The original store (second part of [store.go])

    Every method has a value receiver: the callee works on a copy of the
    [Store] struct (locks and slice header included), while the map the
    [data] field refers to is shared with the caller. *)

Module V2.

Local Open Scope go_scope.

Record Item : Type := {
  Value : string;
  ExpiresAt : Time;
  Views : Z                        (* uint64 *)
}.

Abbreviation loc := positive.

(** [data] is a reference to a map object, or [nil]. *)
Record Store : Type := {
  mu : RWMutex;
  data : option loc;               (* map[string]Item *)
  stackMutex : Mutex;
  lastKeys : list string
}.

(** What outlives a call: the map objects, what [fmt.Println] wrote, and the
    next free address. *)
Record Mem : Type := {
  maps : gmap loc (gmap string Item);
  stdout : list Z;
  brk : loc
}.

Definition set_maps
    (f : gmap loc (gmap string Item) -> gmap loc (gmap string Item))
    (m : Mem) : Mem :=
  {| maps := f (maps m); stdout := stdout m; brk := brk m |}.
Definition set_stdout (f : list Z -> list Z) (m : Mem) : Mem :=
  {| maps := maps m; stdout := f (stdout m); brk := brk m |}.
Definition set_brk (p : loc) (m : Mem) : Mem :=
  {| maps := maps m; stdout := stdout m; brk := p |}.

Definition with_mu (l : RWMutex) (s : Store) : Store :=
  {| mu := l; data := data s; stackMutex := stackMutex s;
     lastKeys := lastKeys s |}.
Definition with_data (d : option loc) (s : Store) : Store :=
  {| mu := mu s; data := d; stackMutex := stackMutex s;
     lastKeys := lastKeys s |}.
Definition with_stackMutex (l : Mutex) (s : Store) : Store :=
  {| mu := mu s; data := data s; stackMutex := l; lastKeys := lastKeys s |}.
Definition with_lastKeys (l : list string) (s : Store) : Store :=
  {| mu := mu s; data := data s; stackMutex := stackMutex s; lastKeys := l |}.

(** The state of a method body: its own copy of the receiver, and the
    memory. *)
Definition Frame : Type := Store * Mem.

(** A method with receiver [s Store]: the body runs on a copy of [s], which
    is dropped when the method returns. *)
Definition method {A} (body : M Frame A) (s : Store) : M Mem A :=
  fun m =>
    match body (s, m) with
    | Done (a, (_, m')) => Done (a, m')
    | Panic => Panic
    | Blocked => Blocked
    end.

(** [s.f(...)] inside a body: the callee receives a copy of the caller's
    current receiver. *)
Definition call {A} (f : Store -> M Mem A) : M Frame A :=
  fun '(s, m) =>
    match f s m with
    | Done (a, m') => Done (a, (s, m'))
    | Panic => Panic
    | Blocked => Blocked
    end.

Definition self {A} (f : Store -> A) : M Frame A := gets (fun fr => f (fst fr)).
Definition self_set (f : Store -> Store) : M Frame unit :=
  modify (fun fr => (f (fst fr), snd fr)).

Definition mu_on (f : RWMutex -> outcome RWMutex) : M Frame unit :=
  on_field (fun fr => mu (fst fr)) (fun l fr => (with_mu l (fst fr), snd fr)) f.
Definition stackMutex_on (f : Mutex -> outcome Mutex) : M Frame unit :=
  on_field (fun fr => stackMutex (fst fr))
           (fun l fr => (with_stackMutex l (fst fr), snd fr)) f.

(** [mutex := sync.Mutex{}; mutex.Lock(); defer mutex.Unlock()] around the
    rest of a body. *)
Definition under_local_Mutex {A} (body : M Frame A) : M Frame A :=
  fun fr =>
    match Mutex_Lock Unlocked with
    | Done mutex =>
        match body fr with
        | Done (a, fr') =>
            match Mutex_Unlock mutex with
            | Done _ => Done (a, fr')
            | Panic => Panic
            | Blocked => Blocked
            end
        | Panic => Panic
        | Blocked => Blocked
        end
    | Panic => Panic
    | Blocked => Blocked
    end.

(** The contents of the map [s.data] refers to; a nil map reads as empty. *)
Definition map_contents (d : option loc) : M Frame (gmap string Item) :=
  fun fr =>
    match d with
    | None => Done (∅, fr)
    | Some l =>
        match maps (snd fr) !! l with
        | Some c => Done (c, fr)
        | None => Panic
        end
    end.

(** [s.data[key] = v]: assignment to an entry of a nil map panics. *)
Definition data_assign (key : string) (v : Item) : M Frame unit :=
  d <- self data ;;
  match d with
  | None => panic
  | Some l =>
      c <- map_contents d ;;
      modify (fun fr => (fst fr, set_maps (insert l (<[key := v]> c)) (snd fr)))
  end.

(** [delete(s.data, key)]: a no-op on a nil map. *)
Definition data_delete (key : string) : M Frame unit :=
  d <- self data ;;
  match d with
  | None => ret tt
  | Some l =>
      c <- map_contents d ;;
      modify (fun fr => (fst fr, set_maps (insert l (delete key c)) (snd fr)))
  end.

Definition data_lookup (key : string) : M Frame (option Item) :=
  d <- self data ;;
  c <- map_contents d ;;
  ret (c !! key).

Definition data_len : M Frame Z :=
  d <- self data ;;
  c <- map_contents d ;;
  ret (Z.of_nat (size c)).

(** [make(map[string]Item)] *)
Definition make_map : M Frame loc :=
  fun fr =>
    Done (brk (snd fr),
          (fst fr, set_brk (Pos.succ (brk (snd fr)))
                     (set_maps (insert (brk (snd fr)) ∅) (snd fr)))).

(** [l[i]] with Go's bounds check. *)
Definition index (l : list string) (i : Z) : M Frame string :=
  if bool_decide (0 <= i < Z.of_nat (length l))
  then match l !! Z.to_nat i with Some k => ret k | None => panic end
  else panic.

Definition Println (l : Z) : M Frame unit :=
  modify (fun fr => (fst fr, set_stdout (fun o => (o ++ [l])%list) (snd fr))).

Definition NewStore : Store :=
  {| mu := Free; data := None; stackMutex := Unlocked; lastKeys := [] |}.

Definition emptyMem : Mem := {| maps := ∅; stdout := []; brk := 1%positive |}.

Definition push_body (value : string) : M Frame unit :=
  stackMutex_on Mutex_Lock ;;
  self_set (fun s => with_lastKeys (lastKeys s ++ [value])%list s) ;;
  stackMutex_on Mutex_Unlock.

Definition push (value : string) : Store -> M Mem unit :=
  method (push_body value).

Definition pop : Store -> M Mem unit :=
  method (
    n <- self (fun s => length (lastKeys s)) ;;
    if bool_decide (n = 0%nat)
    then ret tt
    else
      stackMutex_on Mutex_Lock ;;
      self_set (fun s => with_lastKeys (slice_init (lastKeys s)) s) ;;
      stackMutex_on Mutex_Unlock).

Definition top : Store -> M Mem string :=
  method (
    n <- self (fun s => length (lastKeys s)) ;;
    if bool_decide (n = 0%nat)
    then ret ""
    else
      stackMutex_on Mutex_Lock ;;
      l <- self lastKeys ;;
      len_data <- data_len ;;
      k <- index l (len_data - 1) ;;
      stackMutex_on Mutex_Unlock ;;
      ret k).

Definition Delete (key : string) : Store -> M Mem unit :=
  method (under_local_Mutex (data_delete key)).

(** [ttl] is an [int] of seconds; [time.Duration(ttl) * time.Second] is an
    [int64] product. *)
Definition Set_ (key value : string) (ttl : Z) (now : Time)
    : Store -> M Mem unit :=
  method (
    let expires :=
      if bool_decide (0 < ttl) then Add now (wrap_i64 (ttl * Second))
      else zeroTime in
    under_local_Mutex (
      data_assign key {| Value := value; ExpiresAt := expires; Views := 0 |} ;;
      call (push key))).

Definition RetrieveLastKey : Store -> M Mem string :=
  method (
    k <- call top ;;
    call pop ;;
    call (Delete k) ;;
    ret k).

Definition Size : Store -> M Mem Z :=
  method (
    mu_on RWMutex_Lock ;;
    l <- data_len ;;
    Println l ;;
    mu_on RWMutex_Unlock ;;
    ret l).

Definition Get (key : string) (now : Time) : Store -> M Mem (string * bool) :=
  method (
    mu_on RWMutex_Lock ;;
    r <- (n <- call Size ;;
          if bool_decide (n = 0)
          then ret ("", false)
          else
            r <- data_lookup key ;;
            match r with
            | None => ret ("", false)
            | Some item =>
                if negb (IsZero (ExpiresAt item)) && After now (ExpiresAt item)
                then ret ("", false)
                else
                  (* [item.Views++] on the local copy of the entry *)
                  let item' :=
                    {| Value := Value item; ExpiresAt := ExpiresAt item;
                       Views := wrap_u64 (Views item + 1) |} in
                  ret (Value item', true)
            end) ;;
    mu_on RWMutex_Unlock ;;
    ret r).

Definition GetViews (key : string) : Store -> M Mem Z :=
  method (
    r <- data_lookup key ;;
    match r with
    | None => ret 0
    | Some item => ret (Views item)
    end).

(** The caller receives the very reference the store holds. *)
Definition FullList : Store -> M Mem (option loc) :=
  method (self data).

(** One pass of the loop of [Cleanup], after the sleep; [now k] is the
    reading of [time.Now()] when the entry of [k] is examined. *)
Definition Cleanup_pass (now : string -> Time) : Store -> M Mem unit :=
  method (
    d <- self data ;;
    c <- map_contents d ;;
    for_range (map_to_list c)
      (fun '(k, item) (_ : unit) =>
         if negb (IsZero (ExpiresAt item)) && Before (now k) (ExpiresAt item)
         then data_delete k
         else ret tt)
      tt).

Definition Reset : Store -> M Mem unit :=
  method (
    l <- make_map ;;
    self_set (with_data (Some l))).

(** A store as code of the package can build it: the table is the map at
    address 1, which holds [c], and the stack is [ks]. *)
Definition store_with (ks : list string) : Store :=
  {| mu := Free; data := Some 1%positive; stackMutex := Unlocked;
     lastKeys := ks |}.
Definition mem_with (c : gmap string Item) : Mem :=
  {| maps := {[ 1%positive := c ]}; stdout := []; brk := 2%positive |}.

Definition item (value : string) (expiresAt : Time) : Item :=
  {| Value := value; ExpiresAt := expiresAt; Views := 0 |}.

(** The table a store value sees in a memory: empty for a nil map. *)
Definition table (s : Store) (m : Mem) : option (gmap string Item) :=
  match data s with
  | None => Some ∅
  | Some l => maps m !! l
  end.

(** The test of [Cleanup]'s loop: the entry has an expiry and [now k], the
    clock when [k] is examined, is still before it. *)
Definition still_valid (now : string -> Time) (k : string) (it : Item) : bool :=
  negb (IsZero (ExpiresAt it)) && Before (now k) (ExpiresAt it).

(** Allocated map objects lie below [brk]. *)
Definition allocated_below_brk (m : Mem) : Prop :=
  forall l, is_Some (maps m !! l) -> (l < brk m)%positive.

(** What one round of [Cleanup]'s loop does to the table. *)
Definition pass_step (now : string -> Time) (c : gmap string Item)
    (kv : string * Item) : gmap string Item :=
  if still_valid now kv.1 kv.2 then delete kv.1 c else c.

End V2.

(** * The repaired store: what its calls do

    Every statement below is about a memory that satisfies [wf]; [wf] holds
    of [NewStore] and is kept by every call ([exec_wf]), which also shows
    that no call of the repaired store panics or waits for a lock it holds
    itself. *)

Module V1Spec.
Import V1.
Local Open Scope go_scope.

(** ** Each call, as a function of an idle memory *)

Ltac open_mem m :=
  destruct m as [[l1 d l2 ks] its lsts b];
  repeat match goal with
         | H : idle _ |- _ => destruct H as [? ?]
         end;
  simpl in *; subst.

Ltac step :=
  unfold bind, mu_on, stackMutex_on, on_field, gets, modify, ret, panic,
    data_lookup, data_assign, data_delete, new_Item;
  simpl.

Lemma push_idle value m :
  idle m ->
  push value m =
    Done (tt, set_store (with_lastKeys (pushed value (lastKeys (store m)))) m).
Proof.
  intros Hi. open_mem m. unfold push, pushed. step.
  case_bool_decide; reflexivity.
Qed.

Lemma pop_idle m :
  idle m ->
  pop m = Done (tt, set_store (with_lastKeys (slice_init (lastKeys (store m)))) m).
Proof.
  intros Hi. open_mem m. unfold pop. step.
  case_bool_decide as Hn; [|reflexivity].
  apply length_zero_iff_nil in Hn. subst. reflexivity.
Qed.

Lemma lookup_last_Some (l : list string) :
  l <> [] -> l !! (length l - 1)%nat = Some (slice_last l).
Proof.
  intros Hl. unfold slice_last. rewrite last_lookup, Nat.sub_1_r.
  destruct (l !! Nat.pred (length l)) eqn:E; [reflexivity|].
  apply lookup_ge_None in E. destruct l; [done|simpl in E; lia].
Qed.

Lemma top_idle m :
  idle m -> top m = Done (slice_last (lastKeys (store m)), m).
Proof.
  intros Hi. open_mem m. unfold top. step.
  case_bool_decide as Hn.
  - apply length_zero_iff_nil in Hn. subst. reflexivity.
  - cbn. rewrite lookup_last_Some; [reflexivity|]. intros ->. done.
Qed.

Lemma Set_idle key value ttl now m :
  idle m ->
  Set_ key value ttl now m =
    Done (tt,
      {| store :=
           {| mu := Free; data := <[key := brk m]> (data (store m));
              stackMutex := Unlocked;
              lastKeys := pushed key (lastKeys (store m)) |};
         items :=
           <[brk m :=
               {| Value := value;
                  ExpiresAt := if bool_decide (0 < ttl) then now + ttl else 0;
                  Views := 0 |}]> (items m);
         lists := lists m;
         brk := Pos.succ (brk m) |}).
Proof.
  intros Hi. open_mem m. unfold Set_. step.
  rewrite push_idle by (split; reflexivity). reflexivity.
Qed.

Lemma RetrieveLastKey_idle m :
  idle m ->
  RetrieveLastKey m =
    if bool_decide (lastKeys (store m) = [])
    then Done ("", m)
    else Done (slice_last (lastKeys (store m)),
               set_store (fun s =>
                 with_data (delete (slice_last (lastKeys s)) (data s))
                   (with_lastKeys (slice_init (lastKeys s)) s)) m).
Proof.
  intros Hi. open_mem m. unfold RetrieveLastKey. step.
  case_bool_decide as Hn.
  - apply length_zero_iff_nil in Hn. subst. reflexivity.
  - rewrite bool_decide_eq_false_2 by (intros ->; done).
    cbn. rewrite lookup_last_Some by (intros ->; done). reflexivity.
Qed.

Lemma Size_idle m :
  idle m -> Size m = Done (Z.of_nat (size (data (store m))), m).
Proof. intros Hi. open_mem m. reflexivity. Qed.

Lemma Delete_idle key m :
  idle m ->
  Delete key m =
    Done (tt, set_store (fun s => with_data (delete key (data s)) s) m).
Proof. intros Hi. open_mem m. reflexivity. Qed.

Lemma Reset_idle m :
  idle m ->
  Reset m = Done (tt, set_store (fun s => with_data ∅ (with_lastKeys [] s)) m).
Proof. intros Hi. open_mem m. reflexivity. Qed.

Lemma GetViews_idle key m :
  idle m ->
  GetViews key m =
    match data (store m) !! key with
    | None => Done (0, m)
    | Some p =>
        match items m !! p with
        | Some it => Done (Views it, m)
        | None => Panic
        end
    end.
Proof.
  intros Hi. open_mem m. unfold GetViews. step.
  destruct (d !! key) as [p|]; [|reflexivity].
  unfold load. simpl. destruct (its !! p); reflexivity.
Qed.

Lemma Get_idle key now m :
  idle m ->
  Get key now m =
    match data (store m) !! key with
    | None => Done (("", false), m)
    | Some p =>
        match items m !! p with
        | None => Panic
        | Some it =>
            if expired now it
            then Done (("", false),
                       set_store (fun s => with_data (delete key (data s)) s) m)
            else Done ((Value it, true),
                       set_items (insert p
                         {| Value := Value it; ExpiresAt := ExpiresAt it;
                            Views := wrap_u64 (Views it + 1) |}) m)
        end
    end.
Proof.
  intros Hi. open_mem m. unfold Get. step.
  destruct (d !! key) as [p|] eqn:Hp; [|reflexivity].
  unfold load. simpl. destruct (its !! p) as [it|] eqn:Hit; [|reflexivity].
  unfold expired. destruct (negb _ && _); step.
  - rewrite Hp. rewrite bool_decide_eq_true_2 by reflexivity. reflexivity.
  - unfold Views_Add, load. step. rewrite Hit. reflexivity.
Qed.

(** ** The two loops over the table *)

Lemma delete_keys_lookup ks (d : gmap string loc) k :
  delete_keys ks d !! k = if decide (k ∈ ks) then None else d !! k.
Proof.
  unfold delete_keys. revert d. induction ks as [|k0 ks IH]; intros d; cbn [foldl].
  - case_decide as Hin; [|reflexivity]. by apply elem_of_nil in Hin.
  - rewrite IH. destruct (decide (k ∈ ks)) as [Hin|Hin].
    + rewrite decide_True by (right; exact Hin). reflexivity.
    + destruct (decide (k = k0)) as [->|Hne].
      * rewrite decide_True by left. apply lookup_delete_eq.
      * rewrite decide_False by (intros [?|?]%elem_of_cons; done).
        apply lookup_delete_ne. congruence.
Qed.

Lemma expired_keys_elem now its (d : gmap string loc) k :
  k ∈ expired_keys now its (map_to_list d) <->
  exists p it, d !! k = Some p /\ its !! p = Some it /\ expired now it = true.
Proof.
  unfold expired_keys. rewrite list_elem_of_omap. split.
  - intros [[k' p] [Hin Hk]]. simpl in Hk.
    apply elem_of_map_to_list in Hin.
    destruct (its !! p) as [it|] eqn:Hit; [|done].
    destruct (expired now it) eqn:He; [|done].
    injection Hk as ->. eauto.
  - intros (p & it & Hd & Hit & He). exists (k, p). split.
    + by apply elem_of_map_to_list.
    + simpl. by rewrite Hit, He.
Qed.

Lemma range_collect now kvs acc m :
  (forall k p, (k, p) ∈ kvs -> is_Some (items m !! p)) ->
  for_range kvs
    (fun '(k, item) (expiredKeys : list string) =>
       (it <- load item ;;
        if negb (IsZero (ExpiresAt it)) && After now (ExpiresAt it)
        then ret (expiredKeys ++ [k])%list
        else ret expiredKeys)%go)
    acc m
  = Done ((acc ++ expired_keys now (items m) kvs)%list, m).
Proof.
  revert acc. induction kvs as [|[k p] kvs IH]; intros acc Hv; simpl.
  - unfold ret. by rewrite app_nil_r.
  - destruct (Hv k p) as [it Hit]; [left|].
    unfold bind at 1. unfold bind at 1. unfold load at 1. rewrite Hit.
    unfold expired_keys. simpl. unfold expired.
    destruct (negb _ && _); unfold ret at 1.
    + rewrite IH by (intros; eapply Hv; by right).
      unfold expired_keys. by rewrite <- app_assoc.
    + rewrite IH by (intros; eapply Hv; by right). reflexivity.
Qed.

Lemma range_delete ks m :
  for_range ks (fun v (_ : unit) => data_delete v) tt m
  = Done (tt, set_store (fun s => with_data (delete_keys ks (data s)) s) m).
Proof.
  revert m. induction ks as [|k ks IH]; intros m; simpl.
  - destruct m as [[l1 d l2 lk] its lsts b]. reflexivity.
  - unfold bind, data_delete at 1, modify. rewrite IH.
    destruct m as [[l1 d l2 lk] its lsts b]. reflexivity.
Qed.

Lemma Cleanup_tick_idle now m :
  idle m ->
  (forall k p, data (store m) !! k = Some p -> is_Some (items m !! p)) ->
  Cleanup_tick now m
  = Done (tt, set_store (with_data (swept now m)) m).
Proof.
  intros Hi Hv. unfold Cleanup_tick.
  unfold bind at 1. 
  destruct m as [[l1 d l2 lk] its lsts b]. destruct Hi as [? ?]. simpl in *. subst.
  unfold mu_on at 1, on_field. simpl.
  unfold bind at 1. unfold gets at 1. simpl.
  unfold bind at 1. rewrite range_collect; cycle 1.
  { intros k p Hin. simpl. apply elem_of_map_to_list in Hin. eauto. }
  simpl. unfold swept. simpl.
  set (ks := expired_keys now its (map_to_list d)).
  unfold bind at 1. unfold mu_on at 1, on_field. simpl.
  case_bool_decide as Hn.
  - apply length_zero_iff_nil in Hn. rewrite Hn. reflexivity.
  - unfold bind at 1. unfold mu_on at 1, on_field. simpl.
    unfold bind at 1. rewrite range_delete. simpl. reflexivity.
Qed.

Lemma swept_lookup now m k :
  (forall k p, data (store m) !! k = Some p -> is_Some (items m !! p)) ->
  swept now m !! k =
    match data (store m) !! k with
    | Some p =>
        match items m !! p with
        | Some it => if expired now it then None else Some p
        | None => Some p
        end
    | None => None
    end.
Proof.
  intros Hv. unfold swept. rewrite delete_keys_lookup.
  destruct (decide _) as [Hin|Hin].
  - apply expired_keys_elem in Hin as (p & it & -> & -> & ->). reflexivity.
  - destruct (data (store m) !! k) as [p|] eqn:Hp; [|reflexivity].
    destruct (items m !! p) as [it|] eqn:Hit; [|reflexivity].
    destruct (expired now it) eqn:He; [|reflexivity].
    exfalso. apply Hin. apply expired_keys_elem. eauto.
Qed.

Lemma range_fill kvs l acc m :
  NoDup kvs.*1 ->
  lists m !! l = Some acc ->
  (forall k p, (k, p) ∈ kvs -> is_Some (items m !! p)) ->
  exists c,
    for_range kvs
      (fun '(key, val) (_ : unit) =>
         (it <- load val ;;
          list_assign l key
            {| dtoValue := Value it; dtoExpiresAt := ExpiresAt it;
               dtoViews := Views it |})%go)
      tt m
    = Done (tt, set_lists (insert l c) m) /\
    forall k, c !! k =
      match (list_to_map kvs : gmap string loc) !! k with
      | Some p => dto <$> items m !! p
      | None => acc !! k
      end.
Proof.
  revert acc m. induction kvs as [|[k0 p0] kvs IH]; intros acc m Hnd Hl Hv.
  - exists acc. split; [|intros k; by rewrite list_to_map_nil, lookup_empty].
    simpl. unfold ret. destruct m as [s its lsts b]. unfold set_lists. simpl in *.
    by rewrite insert_id.
  - rewrite fmap_cons in Hnd. apply NoDup_cons in Hnd as [Hk0 Hnd].
    cbn [fst] in Hk0.
    destruct (Hv k0 p0) as [it0 Hit0]; [left|].
    set (m1 := set_lists (insert l (<[k0 := dto it0]> acc)) m).
    destruct (IH (<[k0 := dto it0]> acc) m1) as (c & Hrun & Hc).
    + exact Hnd.
    + destruct m; simpl. apply lookup_insert_eq.
    + intros k p Hin. destruct m; simpl. apply (Hv k p). by right.
    + exists c. split.
      * simpl. unfold bind at 1. unfold bind at 1. unfold load at 1.
        rewrite Hit0. unfold list_assign at 1. rewrite Hl.
        fold (dto it0). fold m1. rewrite Hrun.
        destruct m as [s its lsts b]. unfold m1, set_lists. simpl.
        by rewrite insert_insert_eq.
      * intros k. rewrite Hc. simpl.
        destruct (decide (k = k0)) as [->|Hne].
        -- rewrite lookup_insert_eq.
           rewrite (not_elem_of_list_to_map_1 _ _ Hk0).
           by rewrite lookup_insert_eq, Hit0.
        -- rewrite !(lookup_insert_ne _ k0 k) by congruence. reflexivity.
Qed.

Lemma FullList_idle m :
  idle m ->
  (forall k p, data (store m) !! k = Some p -> is_Some (items m !! p)) ->
  FullList m =
    Done (brk m,
          set_brk (Pos.succ (brk m))
            (set_lists (insert (brk m) (snapshot m)) m)).
Proof.
  intros Hi Hv. destruct m as [[l1 d l2 lk] its lsts b]. destruct Hi as [? ?].
  simpl in *. subst. unfold FullList.
  unfold bind at 1. unfold mu_on at 1, on_field. simpl.
  unfold bind at 1. unfold make_list at 1. simpl.
  unfold bind at 1. unfold gets at 1. simpl.
  set (m1 := set_brk _ _).
  destruct (range_fill (map_to_list d) b ∅ m1) as (c & Hrun & Hc).
  - apply NoDup_fst_map_to_list.
  - simpl. apply lookup_insert_eq.
  - intros k p Hin. simpl. apply elem_of_map_to_list in Hin. eauto.
  - unfold bind at 1. rewrite Hrun. simpl.
    unfold bind, mu_on, on_field, ret. simpl.
    replace c with (snapshot {|
      store := {| mu := Free; data := d; stackMutex := Unlocked; lastKeys := lk |};
      items := its; lists := lsts; brk := b |}).
    + unfold set_brk, set_lists. simpl. by rewrite insert_insert_eq.
    + apply map_eq. intros k. rewrite Hc. unfold snapshot. simpl.
      rewrite lookup_omap, list_to_map_to_list, lookup_empty.
      by destruct (d !! k).
Qed.

Lemma snapshot_lookup m key : snapshot m !! key = dto <$> entry m key.
Proof.
  unfold snapshot, entry. rewrite lookup_omap.
  by destruct (data (store m) !! key).
Qed.

(** ** The memory invariant holds initially and is kept by every call *)

Lemma wf_NewStore : wf NewStore.
Proof.
  split; simpl.
  - split; reflexivity.
  - intros k p H. by rewrite lookup_empty in H.
  - intros k1 k2 p H. by rewrite lookup_empty in H.
  - intros p [x H]. by rewrite lookup_empty in H.
  - intros p [x H]. by rewrite lookup_empty in H.
Qed.

Lemma wf_shrink m d' lk' :
  wf m ->
  (forall k p, d' !! k = Some p -> data (store m) !! k = Some p) ->
  wf {| store := {| mu := Free; data := d'; stackMutex := Unlocked;
                    lastKeys := lk' |};
        items := items m; lists := lists m; brk := brk m |}.
Proof.
  intros [Hi Hc Hu Hit Hl] Hsub. split; simpl.
  - split; reflexivity.
  - intros k p H. eapply Hc, Hsub, H.
  - intros k1 k2 p H1 H2. eapply Hu; eapply Hsub; eassumption.
  - exact Hit.
  - exact Hl.
Qed.

Lemma wf_alloc_item m key it lk' :
  wf m ->
  wf {| store := {| mu := Free; data := <[key := brk m]> (data (store m));
                    stackMutex := Unlocked; lastKeys := lk' |};
        items := <[brk m := it]> (items m); lists := lists m;
        brk := Pos.succ (brk m) |}.
Proof.
  intros [Hi Hc Hu Hit Hl]. split; simpl.
  - split; reflexivity.
  - intros k p H. apply lookup_insert_is_Some'.
    apply lookup_insert_Some in H as [[_ <-]|[_ H]]; [by left|right; eauto].
  - intros k1 k2 p H1 H2.
    apply lookup_insert_Some in H1 as [[<- <-]|[Hn1 H1]];
      apply lookup_insert_Some in H2 as [[E2 E2']|[Hn2 H2]]; subst; try done.
    + apply Hc, Hit in H2. lia.
    + apply Hc, Hit in H1. lia.
    + eauto.
  - intros p H. apply lookup_insert_is_Some' in H as [->|H]; [lia|].
    apply Hit in H. lia.
  - intros p H. apply Hl in H. lia.
Qed.

Lemma wf_store_item m p it it' :
  wf m -> items m !! p = Some it ->
  wf {| store := store m; items := <[p := it']> (items m); lists := lists m;
        brk := brk m |}.
Proof.
  intros [Hi Hc Hu Hit Hl] Hp. split; simpl; try done.
  - intros k q H. apply lookup_insert_is_Some'. right. eauto.
  - intros q H. apply lookup_insert_is_Some' in H as [->|H]; eauto.
Qed.

Lemma wf_alloc_list m c :
  wf m ->
  wf {| store := store m; items := items m;
        lists := <[brk m := c]> (lists m); brk := Pos.succ (brk m) |}.
Proof.
  intros [Hi Hc Hu Hit Hl]. split; simpl; try done.
  - intros p H. apply Hit in H. lia.
  - intros p H. apply lookup_insert_is_Some' in H as [->|H]; [lia|].
    apply Hl in H. lia.
Qed.

Lemma wf_open m :
  wf m ->
  m = {| store := {| mu := Free; data := data (store m);
                     stackMutex := Unlocked; lastKeys := lastKeys (store m) |};
         items := items m; lists := lists m; brk := brk m |}.
Proof.
  intros [[? ?] _ _ _ _]. destruct m as [[l1 d l2 lk] its lsts b].
  simpl in *. by subst.
Qed.

Lemma wf_stack m lk' :
  wf m ->
  wf {| store := {| mu := Free; data := data (store m);
                    stackMutex := Unlocked; lastKeys := lk' |};
        items := items m; lists := lists m; brk := brk m |}.
Proof. intros Hw. by apply wf_shrink. Qed.

Lemma wf_entry m key p :
  wf m -> data (store m) !! key = Some p -> exists it, items m !! p = Some it.
Proof. intros Hw Hp. exact (wf_cells m Hw key p Hp). Qed.

Ltac reshape Hw :=
  rewrite (wf_open _ Hw);
  unfold set_store, set_items, set_lists, set_brk, with_data, with_lastKeys,
    with_mu, with_stackMutex;
  cbn [store items lists brk mu data stackMutex lastKeys].

Theorem exec_wf o m :
  wf m -> exists m', exec o m = Done (tt, m') /\ wf m'.
Proof.
  intros Hw. pose proof (wf_idle m Hw) as Hi.
  destruct o as [key value ttl now|key now|key|key| | | | |now|value| | ];
    cbn [exec].
  - rewrite Set_idle by done. eexists; split; [reflexivity|].
    by apply wf_alloc_item.
  - unfold bind. rewrite Get_idle by done.
    destruct (data (store m) !! key) as [p|] eqn:Hp; [|eauto].
    destruct (wf_entry m key p Hw Hp) as [it Hit]. rewrite Hit.
    destruct (expired now it); (eexists; split; [reflexivity|]).
    + reshape Hw. apply wf_shrink; [done|].
      intros k q Hk. by apply lookup_delete_Some in Hk as [_ Hk].
    + eapply wf_store_item; eauto.
  - unfold bind. rewrite GetViews_idle by done.
    destruct (data (store m) !! key) as [p|] eqn:Hp; [|eauto].
    destruct (wf_entry m key p Hw Hp) as [it Hit]. rewrite Hit. eauto.
  - rewrite Delete_idle by done. eexists; split; [reflexivity|].
    reshape Hw. apply wf_shrink; [done|].
    intros k q Hk. by apply lookup_delete_Some in Hk as [_ Hk].
  - unfold bind. rewrite Size_idle by done. eauto.
  - unfold bind. rewrite FullList_idle by (done || apply Hw).
    eexists; split; [reflexivity|].
    unfold set_brk, set_lists; cbn [store items lists brk].
    by apply wf_alloc_list.
  - unfold bind. rewrite RetrieveLastKey_idle by done.
    case_bool_decide; [eauto|]. eexists; split; [reflexivity|].
    reshape Hw. apply wf_shrink; [done|].
    intros k q Hk. by apply lookup_delete_Some in Hk as [_ Hk].
  - rewrite Reset_idle by done. eexists; split; [reflexivity|].
    reshape Hw. apply wf_shrink; [done|].
    intros k q Hk. by rewrite lookup_empty in Hk.
  - rewrite Cleanup_tick_idle by (done || apply Hw).
    eexists; split; [reflexivity|].
    reshape Hw. apply wf_shrink; [done|].
    intros k q. rewrite <- (wf_open m Hw).
    rewrite swept_lookup by apply Hw.
    destruct (data (store m) !! k) as [p|]; [|done].
    destruct (items m !! p) as [it|]; [|done]. by destruct (expired now it).
  - rewrite push_idle by done. eexists; split; [reflexivity|].
    reshape Hw. by apply wf_stack.
  - rewrite pop_idle by done. eexists; split; [reflexivity|].
    reshape Hw. by apply wf_stack.
  - unfold bind. rewrite top_idle by done. eauto.
Qed.

Theorem run_wf os m :
  wf m -> exists m', run os m = Done (tt, m') /\ wf m'.
Proof.
  revert m. induction os as [|o os IH]; intros m Hw; cbn [run].
  - eauto.
  - destruct (exec_wf o m Hw) as (m1 & Ho & Hw1).
    destruct (IH m1 Hw1) as (m2 & Hr & Hw2).
    exists m2. unfold bind. by rewrite Ho.
Qed.

(** ** What a call does to the entry of a key *)

Lemma Get_returns key now m :
  wf m ->
  returns (Get key now m)
    (match entry m key with
     | Some it => if expired now it then ("", false) else (Value it, true)
     | None => ("", false)
     end).
Proof.
  intros Hw. rewrite Get_idle by apply Hw. unfold entry, returns.
  destruct (data (store m) !! key) as [p|] eqn:Hp; [|eauto].
  destruct (wf_entry m key p Hw Hp) as [it Hit]. rewrite Hit.
  destruct (expired now it); eauto.
Qed.

Lemma GetViews_entry key m :
  wf m ->
  GetViews key m = Done (match entry m key with Some it => Views it | None => 0 end, m).
Proof.
  intros Hw. rewrite GetViews_idle by apply Hw. unfold entry.
  destruct (data (store m) !! key) as [p|] eqn:Hp; [|reflexivity].
  destruct (wf_entry m key p Hw Hp) as [it Hit]. by rewrite Hit.
Qed.

Lemma entry_live m key :
  wf m -> is_Some (data (store m) !! key) -> is_Some (entry m key).
Proof.
  intros Hw [p Hp]. unfold entry. rewrite Hp. exact (wf_cells m Hw key p Hp).
Qed.

Lemma entry_shrink m m' key :
  items m' = items m ->
  (forall p, data (store m') !! key = Some p -> data (store m) !! key = Some p) ->
  entry m' key = None \/ entry m' key = entry m key.
Proof.
  intros Hit Hsub. unfold entry. rewrite Hit.
  destruct (data (store m') !! key) as [p|] eqn:Hp; [|by left].
  right. by rewrite (Hsub p eq_refl).
Qed.

Lemma entry_same m m' key :
  items m' = items m -> data (store m') = data (store m) ->
  entry m' key = entry m key.
Proof. intros Hit Hd. unfold entry. by rewrite Hit, Hd. Qed.

Lemma Set_entry key value ttl now m k :
  wf m ->
  exists m',
    Set_ key value ttl now m = Done (tt, m') /\ wf m' /\
    lastKeys (store m') = pushed key (lastKeys (store m)) /\
    entry m' k =
      if decide (k = key)
      then Some {| Value := value;
                   ExpiresAt := if bool_decide (0 < ttl) then now + ttl else 0;
                   Views := 0 |}
      else entry m k.
Proof.
  intros Hw. rewrite Set_idle by apply Hw. eexists. split; [reflexivity|].
  split; [by apply wf_alloc_item|]. split; [reflexivity|].
  unfold entry. cbn [store data items].
  destruct (decide (k = key)) as [->|Hne].
  - by rewrite !lookup_insert_eq.
  - rewrite lookup_insert_ne by congruence.
    destruct (data (store m) !! k) as [p|] eqn:Hp; [|reflexivity].
    rewrite lookup_insert_ne; [reflexivity|].
    pose proof (wf_items m Hw p (wf_cells m Hw k p Hp)). lia.
Qed.

Lemma Cleanup_tick_entry now m key :
  wf m ->
  exists m',
    Cleanup_tick now m = Done (tt, m') /\ wf m' /\
    lastKeys (store m') = lastKeys (store m) /\
    entry m' key =
      match entry m key with
      | Some it => if expired now it then None else Some it
      | None => None
      end.
Proof.
  intros Hw. destruct (exec_wf (OTick now) m Hw) as (m' & Hrun & Hw').
  exists m'. split; [exact Hrun|]. split; [exact Hw'|].
  cbn [exec] in Hrun. rewrite Cleanup_tick_idle in Hrun by apply Hw.
  injection Hrun as <-. split; [by destruct m as [[] ? ? ?]|].
  unfold entry.
  replace (data (store (set_store (with_data (swept now m)) m)))
    with (swept now m) by (by destruct m as [[] ? ? ?]).
  replace (items (set_store (with_data (swept now m)) m))
    with (items m) by (by destruct m as [[] ? ? ?]).
  rewrite swept_lookup by apply Hw.
  destruct (data (store m) !! key) as [p|] eqn:Hp; [|reflexivity].
  destruct (wf_entry m key p Hw Hp) as [it Hit]. rewrite Hit.
  destruct (expired now it); [reflexivity|]. by rewrite Hit.
Qed.

Lemma keep_or_drop m m' key (b : bool) :
  b = false ->
  entry m' key = None \/ entry m' key = entry m key ->
  entry m' key = None \/
  exists it, entry m key = Some it /\
             entry m' key = Some (if b then viewed 1 it else it).
Proof.
  intros -> [H|H]; [by left|].
  destruct (entry m key) as [it|] eqn:E; [right; eauto|by left].
Qed.

Lemma exec_entry key o m m' :
  wf m -> sets_key key o = false -> exec o m = Done (tt, m') ->
  entry m' key = None \/
  exists it, entry m key = Some it /\
             entry m' key = Some (if is_hit key o m then viewed 1 it else it).
Proof.
  intros Hw Hns Hrun. pose proof (wf_idle m Hw) as Hi.
  destruct o as [k value ttl now|k now|k|k| | | | |now|value| | ];
    cbn [exec sets_key] in *.
  - apply bool_decide_eq_false in Hns.
    destruct (Set_entry k value ttl now m key Hw) as (m1 & H1 & _ & _ & He).
    rewrite H1 in Hrun. injection Hrun as <-.
    rewrite decide_False in He by congruence.
    apply keep_or_drop; [reflexivity|by right].
  - unfold is_hit. unfold bind in Hrun. rewrite Get_idle in * by done.
    destruct (data (store m) !! k) as [p|] eqn:Hp.
    2:{ injection Hrun as <-.
        apply keep_or_drop; [apply andb_false_r|by right]. }
    destruct (wf_entry m k p Hw Hp) as [it Hit]. rewrite Hit in *.
    destruct (expired now it).
    + injection Hrun as <-. rewrite andb_false_r.
      apply (keep_or_drop m _ key false eq_refl). apply entry_shrink.
      * by destruct m as [[] ? ? ?].
      * intros q. destruct m as [[] ? ? ?]. cbn.
        intros Hq. by apply lookup_delete_Some in Hq as [_ Hq].
    + injection Hrun as <-. rewrite andb_true_r.
      unfold entry. cbn [set_items items store].
      destruct (data (store m) !! key) as [q|] eqn:Hq; [|by left].
      right. destruct (decide (q = p)) as [->|Hne].
      * assert (k = key) as -> by (eapply wf_unshared; eauto).
        rewrite bool_decide_eq_true_2 by reflexivity.
        exists it. by rewrite lookup_insert_eq.
      * rewrite bool_decide_eq_false_2 by (intros ->; congruence).
        rewrite lookup_insert_ne by congruence.
        destruct (wf_entry m key q Hw Hq) as [it' Hit']. eauto.
  - unfold bind in Hrun. rewrite GetViews_entry in Hrun by done.
    injection Hrun as <-. apply keep_or_drop; [reflexivity|by right].
  - rewrite Delete_idle in Hrun by done. injection Hrun as <-.
    apply keep_or_drop; [reflexivity|]. apply entry_shrink.
    + by destruct m as [[] ? ? ?].
    + intros q. destruct m as [[] ? ? ?]. cbn.
      intros Hq. by apply lookup_delete_Some in Hq as [_ Hq].
  - unfold bind in Hrun. rewrite Size_idle in Hrun by done.
    injection Hrun as <-. apply keep_or_drop; [reflexivity|by right].
  - unfold bind in Hrun. rewrite FullList_idle in Hrun by (done || apply Hw).
    injection Hrun as <-. apply keep_or_drop; [reflexivity|].
    right. apply entry_same; by destruct m as [[] ? ? ?].
  - unfold bind in Hrun. rewrite RetrieveLastKey_idle in Hrun by done.
    apply keep_or_drop; [reflexivity|]. case_bool_decide.
    + injection Hrun as <-. by right.
    + injection Hrun as <-. apply entry_shrink.
      * by destruct m as [[] ? ? ?].
      * intros q. destruct m as [[] ? ? ?]. cbn.
        intros Hq. by apply lookup_delete_Some in Hq as [_ Hq].
  - rewrite Reset_idle in Hrun by done. injection Hrun as <-.
    left. unfold entry. destruct m as [[] ? ? ?]. cbn. by rewrite lookup_empty.
  - destruct (Cleanup_tick_entry now m key Hw) as (m1 & H1 & _ & _ & He).
    rewrite H1 in Hrun. injection Hrun as <-.
    apply keep_or_drop; [reflexivity|]. rewrite He.
    destruct (entry m key) as [it|]; [|by left].
    destruct (expired now it); [by left|by right].
  - rewrite push_idle in Hrun by done. injection Hrun as <-.
    apply keep_or_drop; [reflexivity|].
    right. apply entry_same; by destruct m as [[] ? ? ?].
  - rewrite pop_idle in Hrun by done. injection Hrun as <-.
    apply keep_or_drop; [reflexivity|].
    right. apply entry_same; by destruct m as [[] ? ? ?].
  - unfold bind in Hrun. rewrite top_idle in Hrun by done.
    injection Hrun as <-. apply keep_or_drop; [reflexivity|by right].
Qed.

(** ** View counters *)

Lemma wrap_u64_range z : 0 <= wrap_u64 z < 2 ^ 64.
Proof. unfold wrap_u64. apply Z.mod_pos_bound. lia. Qed.

Lemma viewed_0 it : 0 <= Views it < 2 ^ 64 -> viewed 0 it = it.
Proof.
  intros Hr. destruct it as [v e n]. unfold viewed, wrap_u64. cbn in *.
  by rewrite Z.add_0_r, Z.mod_small.
Qed.

Lemma viewed_viewed a b it : viewed b (viewed a it) = viewed (a + b) it.
Proof.
  unfold viewed, wrap_u64. cbn. f_equal.
  rewrite Zplus_mod_idemp_l. f_equal. lia.
Qed.

Lemma run_cons o os m m2 :
  wf m -> run (o :: os) m = Done (tt, m2) ->
  exists m1, exec o m = Done (tt, m1) /\ wf m1 /\ run os m1 = Done (tt, m2).
Proof.
  intros Hw Hrun. destruct (exec_wf o m Hw) as (m1 & Ho & Hw1).
  exists m1. cbn [run] in Hrun. unfold bind in Hrun. by rewrite Ho in Hrun.
Qed.

Lemma run_entry_None key os m m2 :
  wf m -> forallb (fun o => negb (sets_key key o)) os = true ->
  run os m = Done (tt, m2) -> entry m key = None -> entry m2 key = None.
Proof.
  revert m. induction os as [|o os IH]; intros m Hw Hns Hrun Hnone.
  - cbn in Hrun. unfold ret in Hrun. by injection Hrun as <-.
  - cbn [forallb] in Hns. apply andb_prop in Hns as [Ho Hns].
    apply negb_true_iff in Ho.
    destruct (run_cons o os m m2 Hw Hrun) as (m1 & H1 & Hw1 & Hrest).
    apply (IH m1 Hw1 Hns Hrest).
    destruct (exec_entry key o m m1 Hw Ho H1) as [H|(it & Hit & _)];
      [exact H|congruence].
Qed.

Lemma run_entry key os m m2 it :
  wf m -> forallb (fun o => negb (sets_key key o)) os = true ->
  run os m = Done (tt, m2) ->
  entry m key = Some it -> 0 <= Views it < 2 ^ 64 ->
  entry m2 key = None \/
  entry m2 key = Some (viewed (Z.of_nat (hits key os m)) it).
Proof.
  revert m it. induction os as [|o os IH]; intros m it Hw Hns Hrun Hit Hr.
  - cbn in Hrun. unfold ret in Hrun. injection Hrun as <-.
    right. cbn [hits]. by rewrite viewed_0.
  - cbn [forallb] in Hns. apply andb_prop in Hns as [Ho Hns].
    apply negb_true_iff in Ho.
    destruct (run_cons o os m m2 Hw Hrun) as (m1 & H1 & Hw1 & Hrest).
    cbn [hits]. rewrite H1.
    destruct (exec_entry key o m m1 Hw Ho H1) as [H|(it0 & Hit0 & H)].
    + left. eapply run_entry_None; eauto.
    + rewrite Hit in Hit0. injection Hit0 as <-.
      destruct (is_hit key o m).
      * destruct (IH m1 (viewed 1 it) Hw1 Hns Hrest H) as [E|E].
        { apply wrap_u64_range. }
        { by left. }
        right. rewrite E, viewed_viewed. do 2 f_equal. lia.
      * destruct (IH m1 it Hw1 Hns Hrest H Hr) as [E|E]; [by left|].
        right. rewrite E. do 2 f_equal.
Qed.

(** C3. After [Set(key, ...)], along any run of calls without another
    [Set] of [key] that leaves [key] in the table, [GetViews(key)] returns
    the number [k] of [Get(key)] calls that found the key (the counter is a
    [uint64], so [k < 2^64]); and right after a [Set] of the key,
    [GetViews] returns 0. *)
Theorem GetViews_counts_hits m key value ttl now os m1 m2 :
  wf m ->
  Set_ key value ttl now m = Done (tt, m1) ->
  forallb (fun o => negb (sets_key key o)) os = true ->
  run os m1 = Done (tt, m2) ->
  is_Some (data (store m2) !! key) ->
  Z.of_nat (hits key os m1) < 2 ^ 64 ->
  returns (GetViews key m2) (Z.of_nat (hits key os m1)) /\
  forall value' ttl' now',
    returns ((Set_ key value' ttl' now' ;; GetViews key) m2) 0.
Proof.
  intros Hw HSet Hns Hrun Hlive Hk.
  destruct (Set_entry key value ttl now m key Hw) as (m1' & H1 & Hw1 & _ & He).
  rewrite HSet in H1. injection H1 as <-.
  rewrite decide_True in He by reflexivity.
  destruct (run_wf os m1 Hw1) as (m2' & Hrun' & Hw2).
  rewrite Hrun in Hrun'. injection Hrun' as <-.
  split.
  - rewrite GetViews_entry by done.
    destruct (run_entry key os m1 m2 _ Hw1 Hns Hrun He) as [E|E].
    + cbn. lia.
    + apply (entry_live m2 key Hw2) in Hlive as [it Hit]. congruence.
    + rewrite E. cbn. unfold wrap_u64. rewrite Z.mod_small by lia.
      by eexists.
  - intros value' ttl' now'.
    destruct (Set_entry key value' ttl' now' m2 key Hw2)
      as (m3 & H3 & Hw3 & _ & He3).
    unfold bind. rewrite H3, GetViews_entry by done.
    rewrite He3, decide_True by reflexivity. by eexists.
Qed.

Lemma Get_expired m key it now :
  wf m -> entry m key = Some it ->
  ExpiresAt it <> 0 -> ExpiresAt it < now ->
  returns (Get key now m) ("", false).
Proof.
  intros Hw Hit Hnz Hpast.
  pose proof (Get_returns key now m Hw) as H. rewrite Hit in H.
  unfold expired, IsZero, After in H.
  rewrite bool_decide_eq_false_2, bool_decide_eq_true_2 in H by done.
  exact H.
Qed.

(** C9. [GetViews] does not test expiry: for an entry still in the table
    whose non-zero [ExpiresAt] lies in the past, it returns the stored
    counter, while [Get] on the same key reports not found. *)
Theorem GetViews_ignores_expiry m key it now :
  wf m ->
  entry m key = Some it ->
  ExpiresAt it <> 0 -> ExpiresAt it < now ->
  returns (GetViews key m) (Views it) /\ returns (Get key now m) ("", false).
Proof.
  intros Hw Hit Hnz Hpast. split.
  - rewrite GetViews_entry, Hit by done. by eexists.
  - by apply (Get_expired m key it).
Qed.

(** ** Expiry *)

Lemma Cleanup_entry_None evs m key :
  wf m -> entry m key = None ->
  exists m', Cleanup evs m = Done (tt, m') /\ wf m' /\ entry m' key = None.
Proof.
  revert m. induction evs as [|[|u] evs IH]; intros m Hw Hn; cbn [Cleanup].
  - exists m. unfold ret. auto.
  - exists m. unfold ret. auto.
  - destruct (Cleanup_tick_entry u m key Hw) as (m1 & H1 & Hw1 & _ & He).
    unfold bind. rewrite H1. rewrite Hn in He. by apply IH.
Qed.

Lemma Cleanup_entry evs m key it :
  wf m -> entry m key = Some it ->
  exists m',
    Cleanup evs m = Done (tt, m') /\ wf m' /\
    (entry m' key = None \/ entry m' key = Some it) /\
    ((forall u, Tick u ∈ evs -> expired u it = false) ->
     entry m' key = Some it).
Proof.
  revert m. induction evs as [|[|u] evs IH]; intros m Hw Hit; cbn [Cleanup].
  - exists m. unfold ret. auto.
  - exists m. unfold ret. auto.
  - destruct (Cleanup_tick_entry u m key Hw) as (m1 & H1 & Hw1 & _ & He).
    unfold bind. rewrite H1. rewrite Hit in He.
    destruct (expired u it) eqn:Hu.
    + destruct (Cleanup_entry_None evs m1 key Hw1 He) as (m2 & H2 & Hw2 & E2).
      exists m2. split; [exact H2|]. split; [exact Hw2|]. split; [by left|].
      intros Hall. rewrite (Hall u) in Hu by left. discriminate.
    + destruct (IH m1 Hw1 He) as (m2 & H2 & Hw2 & Hor & Hkeep).
      exists m2. split; [exact H2|]. split; [exact Hw2|]. split; [exact Hor|].
      intros Hall. apply Hkeep. intros v Hv. apply Hall. by right.
Qed.

(** ** A firing of the ticker in two halves *)

Lemma Cleanup_tick_split now m :
  Cleanup_tick now m = (ks <- Cleanup_collect now ;; Cleanup_delete ks) m.
Proof.
  unfold Cleanup_tick, Cleanup_collect, Cleanup_delete, bind, ret.
  repeat case_match; simplify_eq; done.
Qed.

Lemma Cleanup_collect_idle now m :
  idle m ->
  (forall k p, data (store m) !! k = Some p -> is_Some (items m !! p)) ->
  Cleanup_collect now m =
    Done (expired_keys now (items m) (map_to_list (data (store m))), m).
Proof.
  intros Hi Hv. unfold Cleanup_collect.
  destruct m as [[l1 d l2 lk] its lsts b]. destruct Hi as [? ?].
  simpl in *. subst.
  unfold bind at 1. unfold mu_on at 1, on_field. simpl.
  unfold bind at 1. unfold gets at 1. simpl.
  unfold bind at 1. rewrite range_collect; cycle 1.
  { intros k p Hin. simpl. apply elem_of_map_to_list in Hin. eauto. }
  reflexivity.
Qed.

Lemma Cleanup_delete_idle ks m :
  idle m ->
  Cleanup_delete ks m =
    Done (tt, set_store (fun s => with_data (delete_keys ks (data s)) s) m).
Proof.
  intros Hi. unfold Cleanup_delete.
  destruct m as [[l1 d l2 lk] its lsts b]. destruct Hi as [? ?].
  simpl in *. subst. case_bool_decide as Hn.
  - apply length_zero_iff_nil in Hn. subst. reflexivity.
  - unfold bind at 1. unfold mu_on at 1, on_field. simpl.
    unfold bind at 1. rewrite range_delete. reflexivity.
Qed.

Lemma Cleanup_delete_entry ks m key :
  wf m ->
  exists m',
    Cleanup_delete ks m = Done (tt, m') /\ wf m' /\
    entry m' key = if decide (key ∈ ks) then None else entry m key.
Proof.
  intros Hw. rewrite Cleanup_delete_idle by apply Hw.
  eexists. split; [reflexivity|]. split.
  - reshape Hw. apply wf_shrink; [done|].
    intros k q. rewrite delete_keys_lookup. by case_decide.
  - destruct m as [[l1 d l2 lk] its lsts b]. unfold entry. cbn.
    rewrite delete_keys_lookup. by case_decide.
Qed.

Lemma sweeps_entry_None l m key :
  wf m -> entry m key = None ->
  exists m', sweeps l m = Done (tt, m') /\ wf m' /\ entry m' key = None.
Proof.
  revert m. induction l as [|[u|ks] l IH]; intros m Hw Hn; cbn [sweeps].
  - exists m. unfold ret. auto.
  - destruct (Cleanup_tick_entry u m key Hw) as (m1 & H1 & Hw1 & _ & He).
    unfold bind. rewrite H1. rewrite Hn in He. by apply IH.
  - destruct (Cleanup_delete_entry ks m key Hw) as (m1 & H1 & Hw1 & He).
    unfold bind. rewrite H1. apply IH; [done|].
    rewrite He, Hn. by case_decide.
Qed.

Lemma sweeps_entry l m key it :
  wf m -> entry m key = Some it ->
  exists m',
    sweeps l m = Done (tt, m') /\ wf m' /\
    (entry m' key = None \/ entry m' key = Some it) /\
    ((forall u, Whole u ∈ l -> expired u it = false) ->
     (forall ks, Late ks ∈ l -> key ∉ ks) ->
     entry m' key = Some it).
Proof.
  revert m. induction l as [|[u|ks] l IH]; intros m Hw Hit; cbn [sweeps].
  - exists m. unfold ret. auto.
  - destruct (Cleanup_tick_entry u m key Hw) as (m1 & H1 & Hw1 & _ & He).
    unfold bind. rewrite H1. rewrite Hit in He.
    destruct (expired u it) eqn:Hu.
    + destruct (sweeps_entry_None l m1 key Hw1 He) as (m2 & H2 & Hw2 & E2).
      exists m2. split; [exact H2|]. split; [exact Hw2|]. split; [by left|].
      intros Hall _. rewrite (Hall u) in Hu by left. discriminate.
    + destruct (IH m1 Hw1 He) as (m2 & H2 & Hw2 & Hor & Hkeep).
      exists m2. split; [exact H2|]. split; [exact Hw2|]. split; [exact Hor|].
      intros Hall Hlate. apply Hkeep.
      * intros v Hv. apply Hall. by right.
      * intros ks Hks. apply Hlate. by right.
  - destruct (Cleanup_delete_entry ks m key Hw) as (m1 & H1 & Hw1 & He).
    unfold bind. rewrite H1. rewrite Hit in He.
    destruct (decide (key ∈ ks)) as [Hin|Hin].
    + destruct (sweeps_entry_None l m1 key Hw1 He) as (m2 & H2 & Hw2 & E2).
      exists m2. split; [exact H2|]. split; [exact Hw2|]. split; [by left|].
      intros _ Hlate. exfalso. apply (Hlate ks); [left|exact Hin].
    + destruct (IH m1 Hw1 He) as (m2 & H2 & Hw2 & Hor & Hkeep).
      exists m2. split; [exact H2|]. split; [exact Hw2|]. split; [exact Hor|].
      intros Hall Hlate. apply Hkeep.
      * intros v Hv. apply Hall. by right.
      * intros ks' Hks. apply Hlate. by right.
Qed.

(** C1, as the code has it.  After [Set(key, value, d)] with [d > 0] at
    time [now], and after any sweeping in between, [Get(key)] at time [t]
    does not find the key when [t] is strictly after the expiry instant
    [now + d], and returns the value at every [t] up to and including that
    instant.  The sweeping is any sequence of whole firings of the ticker
    (read from the same clock, so none later than [t]) and of deletions by
    firings whose scan ran before the [Set]; for the value to be found, such
    a late deletion must not hold [key], since [Cleanup] deletes the keys it
    collected without looking at their entries again.  And [Get] never
    returns a value for an entry whose non-zero [ExpiresAt] is strictly in
    the past. *)
Theorem Get_after_Set_until_expiry m key value d now l t :
  wf m -> 0 <= now -> 0 < d ->
  (forall u, Whole u ∈ l -> u <= t) ->
  (t <= now + d -> forall ks, Late ks ∈ l -> key ∉ ks) ->
  returns ((Set_ key value d now ;; sweeps l ;; Get key t) m)
          (if bool_decide (t <= now + d) then (value, true) else ("", false))
  /\ forall it,
       entry m key = Some it -> ExpiresAt it <> 0 -> ExpiresAt it < t ->
       returns (Get key t m) ("", false).
Proof.
  intros Hw Hnow Hd Hticks Hlate. split.
  - destruct (Set_entry key value d now m key Hw) as (m1 & H1 & Hw1 & _ & He).
    rewrite decide_True in He by reflexivity.
    rewrite bool_decide_eq_true_2 in He by done.
    destruct (sweeps_entry l m1 key _ Hw1 He)
      as (m2 & H2 & Hw2 & Hor & Hkeep).
    unfold bind. rewrite H1, H2.
    pose proof (Get_returns key t m2 Hw2) as HG.
    case_bool_decide as Ht.
    + rewrite Hkeep in HG.
      * unfold expired, After in HG. cbn [ExpiresAt Value] in HG.
        rewrite (bool_decide_eq_false_2 (now + d < t)) in HG by lia.
        by rewrite andb_false_r in HG.
      * intros u Hu. apply Hticks in Hu. unfold expired, After.
        cbn [ExpiresAt].
        rewrite (bool_decide_eq_false_2 (now + d < u)) by lia.
        apply andb_false_r.
      * by apply Hlate.
    + destruct Hor as [E|E]; rewrite E in HG; [exact HG|].
      unfold expired, IsZero, After in HG. cbn [ExpiresAt Value] in HG.
      rewrite bool_decide_eq_false_2, bool_decide_eq_true_2 in HG by lia.
      exact HG.
  - intros it Hit Hnz Hpast.
    by apply (Get_expired m key it).
Qed.

(** ** The sweeper *)

(** A tick of [Cleanup] removes exactly the entries whose non-zero
    [ExpiresAt] is strictly before [now], and leaves the others as they
    are. *)
Theorem Cleanup_tick_removes_only_expired now m :
  wf m ->
  exists m',
    Cleanup_tick now m = Done (tt, m') /\
    forall key it,
      entry m key = Some it ->
      (entry m' key = None /\ ExpiresAt it <> 0 /\ ExpiresAt it < now) \/
      (entry m' key = Some it /\ ~ (ExpiresAt it <> 0 /\ ExpiresAt it < now)).
Proof.
  intros Hw. destruct (exec_wf (OTick now) m Hw) as (m' & Hrun & _).
  exists m'. split; [exact Hrun|]. intros key it Hit.
  destruct (Cleanup_tick_entry now m key Hw) as (m1 & H1 & _ & _ & He).
  cbn [exec] in Hrun. rewrite Hrun in H1. injection H1 as <-.
  rewrite Hit in He. unfold expired, IsZero, After in He.
  destruct (decide (ExpiresAt it = 0)) as [Hz|Hz].
  - rewrite bool_decide_eq_true_2 in He by done. right. tauto.
  - rewrite bool_decide_eq_false_2 in He by done.
    case_bool_decide; [left|right]; tauto.
Qed.

(** ** The stack of recent keys *)

Lemma pushed_length value l :
  (length l <= 30)%nat -> (length (pushed value l) <= 30)%nat.
Proof.
  intros Hl. unfold pushed. case_bool_decide.
  - rewrite length_drop, length_app. cbn. lia.
  - lia.
Qed.

Lemma pushed_lastn value l :
  (length l <= 30)%nat -> pushed value l = lastn 30 (l ++ [value]).
Proof.
  intros Hl. unfold pushed, lastn. rewrite length_app. cbn [length].
  case_bool_decide as H; cbn [length] in H.
  - by replace (length l + 1 - 30)%nat with 1%nat by lia.
  - by replace (length l + 1 - 30)%nat with 0%nat by lia.
Qed.

Lemma lastn_length n l : (length (lastn n l) <= n)%nat.
Proof. unfold lastn. rewrite length_drop. lia. Qed.

Lemma lastn_snoc n l value :
  lastn n (lastn n l ++ [value]) = lastn n (l ++ [value]).
Proof.
  unfold lastn. rewrite !length_app, length_drop. cbn [length].
  rewrite <- (drop_app_le l [value]) by lia.
  rewrite drop_drop. f_equal. lia.
Qed.

Lemma lastn_short n l : (length l <= n)%nat -> lastn n l = l.
Proof. intros H. unfold lastn. by replace (length l - n)%nat with 0%nat by lia. Qed.

Lemma slice_init_length l : (length (slice_init l) <= length l)%nat.
Proof. unfold slice_init. rewrite length_take. lia. Qed.

Lemma slice_init_snoc l k : slice_init (l ++ [k]) = l.
Proof.
  unfold slice_init. rewrite length_app. cbn [length].
  replace (length l + 1 - 1)%nat with (length l) by lia.
  by rewrite take_app_length.
Qed.

Lemma slice_last_snoc l k : slice_last (l ++ [k]) = k.
Proof. unfold slice_last. by rewrite last_snoc. Qed.

Lemma exec_stack o m m' :
  wf m -> exec o m = Done (tt, m') ->
  let l := lastKeys (store m) in
  let l' := lastKeys (store m') in
  l' = l \/ l' = slice_init l \/ l' = [] \/ exists k, l' = pushed k l.
Proof.
  intros Hw Hrun. pose proof (wf_idle m Hw) as Hi.
  destruct o as [k value ttl now|k now|k|k| | | | |now|value| | ];
    cbn [exec] in Hrun.
  - rewrite Set_idle in Hrun by done. injection Hrun as <-.
    right; right; right. by exists k.
  - unfold bind in Hrun. rewrite Get_idle in Hrun by done.
    destruct (data (store m) !! k) as [p|]; [|injection Hrun as <-; by left].
    destruct (items m !! p) as [it|]; [|done].
    destruct (expired now it); injection Hrun as <-; left;
      by destruct m as [[] ? ? ?].
  - unfold bind in Hrun. rewrite GetViews_entry in Hrun by done.
    injection Hrun as <-. by left.
  - rewrite Delete_idle in Hrun by done. injection Hrun as <-.
    left. by destruct m as [[] ? ? ?].
  - unfold bind in Hrun. rewrite Size_idle in Hrun by done.
    injection Hrun as <-. by left.
  - unfold bind in Hrun. rewrite FullList_idle in Hrun by (done || apply Hw).
    injection Hrun as <-. left. by destruct m as [[] ? ? ?].
  - unfold bind in Hrun. rewrite RetrieveLastKey_idle in Hrun by done.
    case_bool_decide; injection Hrun as <-; [by left|].
    right; left. by destruct m as [[] ? ? ?].
  - rewrite Reset_idle in Hrun by done. injection Hrun as <-.
    right; right; left. by destruct m as [[] ? ? ?].
  - destruct (Cleanup_tick_entry now m "" Hw) as (m1 & H1 & _ & Hl & _).
    rewrite Hrun in H1. injection H1 as <-. by left.
  - rewrite push_idle in Hrun by done. injection Hrun as <-.
    right; right; right. exists value. by destruct m as [[] ? ? ?].
  - rewrite pop_idle in Hrun by done. injection Hrun as <-.
    right; left. by destruct m as [[] ? ? ?].
  - unfold bind in Hrun. rewrite top_idle in Hrun by done.
    injection Hrun as <-. by left.
Qed.

(** Every call keeps at most 30 keys in the stack. *)
Theorem exec_bounded o m :
  wf m -> bounded m ->
  exists m', exec o m = Done (tt, m') /\ wf m' /\ bounded m'.
Proof.
  intros Hw Hb. destruct (exec_wf o m Hw) as (m' & Hrun & Hw').
  exists m'. split; [exact Hrun|]. split; [exact Hw'|].
  unfold bounded in *.
  destruct (exec_stack o m m' Hw Hrun) as [E|[E|[E|[k E]]]]; rewrite E.
  - exact Hb.
  - pose proof (slice_init_length (lastKeys (store m))). lia.
  - cbn. lia.
  - by apply pushed_length.
Qed.

Lemma lastn_app n l ys :
  lastn n (lastn n l ++ ys) = lastn n (l ++ ys).
Proof.
  unfold lastn. rewrite !length_app, length_drop.
  rewrite <- (drop_app_le l ys) by lia.
  rewrite drop_drop. f_equal. lia.
Qed.

Lemma run_Sets args m :
  wf m -> bounded m ->
  exists m',
    run (OSet_of <$> args) m = Done (tt, m') /\ wf m' /\ bounded m' /\
    lastKeys (store m') = lastn 30 (lastKeys (store m) ++ (key_of <$> args)).
Proof.
  revert m. induction args as [|a args IH]; intros m Hw Hb.
  - exists m. split; [reflexivity|]. split; [exact Hw|]. split; [exact Hb|].
    rewrite fmap_nil, app_nil_r. symmetry. by apply lastn_short.
  - destruct (Set_entry a.1.1.1 a.1.1.2 a.1.2 a.2 m "" Hw)
      as (m1 & H1 & Hw1 & Hl1 & _).
    assert (Hb1 : bounded m1).
    { unfold bounded. rewrite Hl1. by apply pushed_length. }
    destruct (IH m1 Hw1 Hb1) as (m2 & H2 & Hw2 & Hb2 & Hl2).
    exists m2. split; [|split; [exact Hw2|split; [exact Hb2|]]].
    + cbn [fmap list_fmap run]. unfold bind. cbn [exec OSet_of].
      by rewrite H1.
    + rewrite Hl2, Hl1, pushed_lastn by exact Hb.
      rewrite lastn_app, <- app_assoc. reflexivity.
Qed.

(** After [Set] was called for more than 30 keys on a new store, the stack
    holds the keys of the last 30 calls, in call order. *)
Theorem Sets_leave_last_30 args :
  (30 < length args)%nat ->
  exists m',
    run (OSet_of <$> args) NewStore = Done (tt, m') /\
    lastKeys (store m') = drop (length args - 30) (key_of <$> args) /\
    length (lastKeys (store m')) = 30%nat.
Proof.
  intros Hlen.
  destruct (run_Sets args NewStore wf_NewStore) as (m' & Hrun & _ & _ & Hl).
  { unfold bounded. cbn. lia. }
  exists m'. split; [exact Hrun|]. cbn [NewStore store lastKeys app] in Hl.
  unfold lastn in Hl. rewrite length_fmap in Hl. split; [exact Hl|].
  rewrite Hl, length_drop, length_fmap. lia.
Qed.

(** C10. [Set] pushes its key whatever the table holds, so a key already
    at the top of the stack is pushed again, and 31 consecutive [Set]s of
    one key leave 30 copies of it. *)
Theorem Set_pushes_unconditionally m key :
  wf m -> bounded m ->
  (forall value ttl now,
     exists m',
       Set_ key value ttl now m = Done (tt, m') /\
       lastKeys (store m') = pushed key (lastKeys (store m)) /\
       forall value' ttl' now',
         exists m'',
           Set_ key value' ttl' now' m' = Done (tt, m'') /\
           lastn 2 (lastKeys (store m'')) = [key; key]) /\
  (forall args,
     length args = 31%nat -> (forall a, a ∈ args -> key_of a = key) ->
     exists m',
       run (OSet_of <$> args) m = Done (tt, m') /\
       lastKeys (store m') = replicate 30 key).
Proof.
  intros Hw Hb. split.
  - intros value ttl now.
    destruct (Set_entry key value ttl now m "" Hw) as (m1 & H1 & Hw1 & Hl1 & _).
    exists m1. split; [exact H1|]. split; [exact Hl1|].
    intros value' ttl' now'.
    destruct (Set_entry key value' ttl' now' m1 "" Hw1)
      as (m2 & H2 & Hw2 & Hl2 & _).
    exists m2. split; [exact H2|].
    assert (Hb1 : bounded m1).
    { unfold bounded. rewrite Hl1. by apply pushed_length. }
    rewrite Hl2, (pushed_lastn key (lastKeys (store m1))) by exact Hb1.
    rewrite Hl1, (pushed_lastn key (lastKeys (store m))) by exact Hb.
    rewrite lastn_app, <- app_assoc. cbn [app].
    set (l := lastKeys (store m)).
    unfold lastn. rewrite length_drop, !length_app. cbn [length].
    rewrite drop_drop.
    replace (length l + 2 - 30 + (length l + 2 - (length l + 2 - 30) - 2))%nat
      with (length l) by (unfold bounded in Hb; fold l in Hb; lia).
    by rewrite drop_app_length.
  - intros args Hlen Hkeys.
    destruct (run_Sets args m Hw Hb) as (m' & Hrun & _ & _ & Hl).
    exists m'. split; [exact Hrun|]. rewrite Hl.
    assert (Hrep : key_of <$> args = replicate 31 key).
    { rewrite <- Hlen. clear -Hkeys. induction args as [|a args IH]; [done|].
      cbn. rewrite (Hkeys a) by left. f_equal. apply IH.
      intros b Hin. apply Hkeys. by right. }
    rewrite Hrep. unfold lastn. rewrite length_app, length_replicate.
    replace (length (lastKeys (store m)) + 31 - 30)%nat
      with (length (lastKeys (store m)) + 1)%nat by lia.
    rewrite drop_app_add. reflexivity.
Qed.

(** [RetrieveLastKey] takes the newest key off the stack, deletes it from
    the table and returns it; on an empty stack it returns the empty string
    and changes nothing. *)
Theorem RetrieveLastKey_pops_and_deletes m :
  wf m ->
  (lastKeys (store m) = [] -> RetrieveLastKey m = Done ("", m)) /\
  (forall l k,
     lastKeys (store m) = (l ++ [k])%list ->
     exists m',
       RetrieveLastKey m = Done (k, m') /\
       lastKeys (store m') = l /\
       data (store m') = delete k (data (store m)) /\
       items m' = items m).
Proof.
  intros Hw. rewrite RetrieveLastKey_idle by apply Hw. split.
  - intros ->. reflexivity.
  - intros l k Hl. rewrite Hl.
    rewrite bool_decide_eq_false_2 by (by destruct l).
    rewrite slice_last_snoc. eexists. split; [reflexivity|].
    destruct m as [[l1 d l2 ks] its lsts b].
    unfold set_store, with_data, with_lastKeys.
    cbn [store lastKeys data items] in *. subst ks.
    by rewrite slice_init_snoc, slice_last_snoc.
Qed.

(** [top] returns the newest key and leaves the store as it was; the index
    it reads is computed from the stack, so it never panics. *)
Theorem top_reads_newest m :
  wf m ->
  top m = Done (slice_last (lastKeys (store m)), m) /\
  (lastKeys (store m) = [] -> slice_last (lastKeys (store m)) = "") /\
  (forall l k, lastKeys (store m) = (l ++ [k])%list ->
               slice_last (lastKeys (store m)) = k).
Proof.
  intros Hw. split; [apply top_idle, Hw|]. split.
  - by intros ->.
  - intros l k ->. apply slice_last_snoc.
Qed.

(** After [Reset], [Size] is 0, [FullList] is empty and [RetrieveLastKey]
    returns the empty string. *)
Theorem Reset_clears m :
  wf m ->
  returns ((Reset ;; Size) m) 0 /\
  (exists l m', (Reset ;; FullList) m = Done (l, m') /\ lists m' !! l = Some ∅) /\
  returns ((Reset ;; RetrieveLastKey) m) "".
Proof.
  intros Hw. pose proof (wf_idle m Hw) as Hi.
  destruct (exec_wf OReset m Hw) as (m1 & H1 & Hw1). cbn [exec] in H1.
  assert (Hm1 : data (store m1) = ∅ /\ lastKeys (store m1) = []).
  { rewrite Reset_idle in H1 by done. injection H1 as <-.
    by destruct m as [[] ? ? ?]. }
  destruct Hm1 as [Hd Hk]. unfold bind. rewrite H1.
  split; [|split].
  - rewrite Size_idle, Hd by apply Hw1. by eexists.
  - rewrite FullList_idle by apply Hw1. do 2 eexists. split; [reflexivity|].
    cbn. rewrite lookup_insert_eq. f_equal. unfold snapshot.
    rewrite Hd. apply omap_empty.
  - rewrite RetrieveLastKey_idle, Hk by apply Hw1. by eexists.
Qed.

(** ** The map [FullList] returns *)

Lemma exec_lists o m m' l c :
  wf m -> exec o m = Done (tt, m') ->
  lists m !! l = Some c -> lists m' !! l = Some c.
Proof.
  intros Hw Hrun Hl. pose proof (wf_idle m Hw) as Hi.
  destruct o as [k value ttl now|k now|k|k| | | | |now|value| | ];
    cbn [exec] in Hrun.
  - rewrite Set_idle in Hrun by done. by injection Hrun as <-.
  - unfold bind in Hrun. rewrite Get_idle in Hrun by done.
    destruct (data (store m) !! k) as [p|]; [|by injection Hrun as <-].
    destruct (items m !! p) as [it|]; [|done].
    destruct (expired now it); injection Hrun as <-;
      by destruct m as [[] ? ? ?].
  - unfold bind in Hrun. rewrite GetViews_entry in Hrun by done.
    by injection Hrun as <-.
  - rewrite Delete_idle in Hrun by done. injection Hrun as <-.
    by destruct m as [[] ? ? ?].
  - unfold bind in Hrun. rewrite Size_idle in Hrun by done.
    by injection Hrun as <-.
  - unfold bind in Hrun. rewrite FullList_idle in Hrun by (done || apply Hw).
    injection Hrun as <-. cbn. rewrite lookup_insert_ne; [done|].
    pose proof (wf_lists m Hw l (mk_is_Some _ _ Hl)). lia.
  - unfold bind in Hrun. rewrite RetrieveLastKey_idle in Hrun by done.
    case_bool_decide; injection Hrun as <-; [done|].
    by destruct m as [[] ? ? ?].
  - rewrite Reset_idle in Hrun by done. injection Hrun as <-.
    by destruct m as [[] ? ? ?].
  - rewrite Cleanup_tick_idle in Hrun by (done || apply Hw).
    injection Hrun as <-. by destruct m as [[] ? ? ?].
  - rewrite push_idle in Hrun by done. injection Hrun as <-.
    by destruct m as [[] ? ? ?].
  - rewrite pop_idle in Hrun by done. injection Hrun as <-.
    by destruct m as [[] ? ? ?].
  - unfold bind in Hrun. rewrite top_idle in Hrun by done.
    by injection Hrun as <-.
Qed.

Lemma run_lists os m m' l c :
  wf m -> run os m = Done (tt, m') ->
  lists m !! l = Some c -> lists m' !! l = Some c.
Proof.
  revert m. induction os as [|o os IH]; intros m Hw Hrun Hl.
  - cbn in Hrun. unfold ret in Hrun. by injection Hrun as <-.
  - destruct (run_cons o os m m' Hw Hrun) as (m1 & H1 & Hw1 & Hrest).
    eapply IH; eauto using exec_lists.
Qed.

(** [FullList] returns a new map that holds a copy of every entry, and no
    later call on the store changes that map. *)
Theorem FullList_snapshot_is_independent m :
  wf m ->
  exists l m',
    FullList m = Done (l, m') /\
    lists m !! l = None /\
    lists m' !! l = Some (snapshot m) /\
    (forall key, snapshot m !! key = dto <$> entry m key) /\
    forall os m'',
      run os m' = Done (tt, m'') -> lists m'' !! l = Some (snapshot m).
Proof.
  intros Hw. destruct (exec_wf OFullList m Hw) as (m1 & H1 & Hw1).
  cbn [exec] in H1. unfold bind in H1.
  rewrite FullList_idle in * by apply Hw. injection H1 as <-.
  do 2 eexists. split; [reflexivity|].
  assert (Hl : lists (set_brk (Pos.succ (brk m))
             (set_lists <[brk m:=snapshot m]> m)) !! brk m = Some (snapshot m)).
  { cbn. apply lookup_insert_eq. }
  split; [|split; [exact Hl|split; [apply snapshot_lookup|]]].
  - destruct (lists m !! brk m) eqn:E; [|done].
    pose proof (wf_lists m Hw (brk m) (mk_is_Some _ _ E)). lia.
  - intros os m'' Hrun. eapply run_lists; eauto.
Qed.

(** ** The statements above at concrete inputs *)

Lemma wf_after os m m' : wf m -> run os m = Done (tt, m') -> wf m'.
Proof.
  intros Hw Hrun. destruct (run_wf os m Hw) as (m1 & H1 & Hw1).
  rewrite Hrun in H1. by injection H1 as ->.
Qed.

(** C1, as the spec has it, fails at the expiry instant itself: one second
    after [Set("b", "2", 1s)], [Get("b")] still finds the value. *)
Lemma Get_at_expiry_instant_finds :
  returns ((Set_ "b" "2" Second 100 ;; Get "b" (100 + Second)) NewStore)
          ("2", true).
Proof. vm_compute. eexists. reflexivity. Qed.

Lemma GetViews_counts_hits_witness :
  returns (GetViews "a" demo_m2) (Z.of_nat (hits "a" demo_os demo_m1)) /\
  forall value' ttl' now',
    returns ((Set_ "a" value' ttl' now' ;; GetViews "a") demo_m2) 0.
Proof.
  apply (GetViews_counts_hits NewStore "a" "1" 0 10 demo_os demo_m1 demo_m2).
  - apply wf_NewStore.
  - vm_compute. reflexivity.
  - reflexivity.
  - vm_compute. reflexivity.
  - vm_compute. eexists. reflexivity.
  - vm_compute. reflexivity.
Defined.

Example demo_hits : hits "a" demo_os demo_m1 = 3%nat.
Proof. vm_compute. reflexivity. Qed.

Lemma GetViews_ignores_expiry_witness :
  returns (GetViews "a" demo_m3) 1 /\ returns (Get "a" 200 demo_m3) ("", false).
Proof.
  apply (GetViews_ignores_expiry demo_m3 "a"
           {| Value := "1"; ExpiresAt := 110; Views := 1 |} 200).
  - apply (wf_after [OSet "a" "1" 10 100; OGet "a" 105] NewStore).
    + apply wf_NewStore.
    + vm_compute. reflexivity.
  - vm_compute. reflexivity.
  - discriminate.
  - reflexivity.
Defined.

Lemma Set_pushes_unconditionally_witness :
  (forall value ttl now,
     exists m',
       Set_ "k" value ttl now NewStore = Done (tt, m') /\
       lastKeys (store m') = pushed "k" (lastKeys (store NewStore)) /\
       forall value' ttl' now',
         exists m'',
           Set_ "k" value' ttl' now' m' = Done (tt, m'') /\
           lastn 2 (lastKeys (store m'')) = ["k"; "k"]) /\
  (forall args,
     length args = 31%nat -> (forall a, a ∈ args -> key_of a = "k") ->
     exists m',
       run (OSet_of <$> args) NewStore = Done (tt, m') /\
       lastKeys (store m') = replicate 30 "k").
Proof.
  apply (Set_pushes_unconditionally NewStore "k").
  - apply wf_NewStore.
  - unfold bounded. cbn. lia.
Defined.

Lemma wf_demo_m2 : wf demo_m2.
Proof.
  apply (wf_after (OSet "a" "1" 0 10 :: demo_os) NewStore).
  - apply wf_NewStore.
  - vm_compute. reflexivity.
Qed.

Lemma wf_demo_m3 : wf demo_m3.
Proof.
  apply (wf_after [OSet "a" "1" 10 100; OGet "a" 105] NewStore).
  - apply wf_NewStore.
  - vm_compute. reflexivity.
Qed.

Lemma Get_after_Set_until_expiry_witness :
  (returns
     ((Set_ "b" "2" Second 100 ;;
       sweeps [Late ["a"]; Whole 150; Whole (100 + Second)] ;;
       Get "b" (100 + Second)) demo_m2)
     (if bool_decide (100 + Second <= 100 + Second)
      then ("2", true) else ("", false))
   /\ forall it,
        entry demo_m2 "b" = Some it -> ExpiresAt it <> 0 ->
        ExpiresAt it < 100 + Second ->
        returns (Get "b" (100 + Second) demo_m2) ("", false))
  /\
  (returns
     ((Set_ "b" "2" Second 100 ;;
       sweeps [Late ["a"; "b"]; Whole 150] ;;
       Get "b" (101 + Second)) demo_m2)
     (if bool_decide (101 + Second <= 100 + Second)
      then ("2", true) else ("", false))
   /\ forall it,
        entry demo_m2 "b" = Some it -> ExpiresAt it <> 0 ->
        ExpiresAt it < 101 + Second ->
        returns (Get "b" (101 + Second) demo_m2) ("", false)).
Proof.
  split.
  - apply (Get_after_Set_until_expiry demo_m2 "b" "2" Second 100
             [Late ["a"]; Whole 150; Whole (100 + Second)] (100 + Second)).
    + apply wf_demo_m2.
    + lia.
    + reflexivity.
    + intros u Hu.
      apply elem_of_cons in Hu as [Hu|Hu]; [discriminate|].
      apply elem_of_cons in Hu as [Hu|Hu];
        [injection Hu as ->; vm_compute; discriminate|].
      apply elem_of_cons in Hu as [Hu|Hu]; [injection Hu as ->; lia|].
      by apply elem_of_nil in Hu.
    + intros _ ks Hks.
      apply elem_of_cons in Hks as [Hks|Hks].
      * injection Hks as ->. intros Hin.
        apply elem_of_cons in Hin as [Hin|Hin]; [discriminate|].
        by apply elem_of_nil in Hin.
      * apply elem_of_cons in Hks as [Hks|Hks]; [discriminate|].
        apply elem_of_cons in Hks as [Hks|Hks]; [discriminate|].
        by apply elem_of_nil in Hks.
  - apply (Get_after_Set_until_expiry demo_m2 "b" "2" Second 100
             [Late ["a"; "b"]; Whole 150] (101 + Second)).
    + apply wf_demo_m2.
    + lia.
    + reflexivity.
    + intros u Hu.
      apply elem_of_cons in Hu as [Hu|Hu]; [discriminate|].
      apply elem_of_cons in Hu as [Hu|Hu];
        [injection Hu as ->; vm_compute; discriminate|].
      by apply elem_of_nil in Hu.
    + intros Hle. exfalso. revert Hle. vm_compute. intros H. by apply H.
Defined.

Lemma Cleanup_tick_removes_only_expired_witness :
  exists m',
    Cleanup_tick 200 demo_m3 = Done (tt, m') /\
    forall key it,
      entry demo_m3 key = Some it ->
      (entry m' key = None /\ ExpiresAt it <> 0 /\ ExpiresAt it < 200) \/
      (entry m' key = Some it /\ ~ (ExpiresAt it <> 0 /\ ExpiresAt it < 200)).
Proof. apply (Cleanup_tick_removes_only_expired 200 demo_m3 wf_demo_m3). Defined.

Lemma exec_bounded_witness :
  exists m', exec (OPush "k") demo_m2 = Done (tt, m') /\ wf m' /\ bounded m'.
Proof.
  apply (exec_bounded (OPush "k") demo_m2 wf_demo_m2).
  unfold bounded. vm_compute. lia.
Defined.

Lemma Sets_leave_last_30_witness :
  exists m',
    run (OSet_of <$> demo_args) NewStore = Done (tt, m') /\
    lastKeys (store m') = drop (length demo_args - 30) (key_of <$> demo_args) /\
    length (lastKeys (store m')) = 30%nat.
Proof. apply (Sets_leave_last_30 demo_args). vm_compute. lia. Defined.

Lemma RetrieveLastKey_pops_and_deletes_witness :
  (lastKeys (store demo_m2) = [] -> RetrieveLastKey demo_m2 = Done ("", demo_m2)) /\
  (forall l k,
     lastKeys (store demo_m2) = (l ++ [k])%list ->
     exists m',
       RetrieveLastKey demo_m2 = Done (k, m') /\
       lastKeys (store m') = l /\
       data (store m') = delete k (data (store demo_m2)) /\
       items m' = items demo_m2).
Proof. apply (RetrieveLastKey_pops_and_deletes demo_m2 wf_demo_m2). Defined.

Example demo_stack : lastKeys (store demo_m2) = ["a"; "b"].
Proof. vm_compute. reflexivity. Qed.

Lemma top_reads_newest_witness :
  top demo_m2 = Done (slice_last (lastKeys (store demo_m2)), demo_m2) /\
  (lastKeys (store demo_m2) = [] -> slice_last (lastKeys (store demo_m2)) = "") /\
  (forall l k, lastKeys (store demo_m2) = (l ++ [k])%list ->
               slice_last (lastKeys (store demo_m2)) = k).
Proof. apply (top_reads_newest demo_m2 wf_demo_m2). Defined.

Lemma Reset_clears_witness :
  returns ((Reset ;; Size) demo_m2) 0 /\
  (exists l m',
     (Reset ;; FullList) demo_m2 = Done (l, m') /\ lists m' !! l = Some ∅) /\
  returns ((Reset ;; RetrieveLastKey) demo_m2) "".
Proof. apply (Reset_clears demo_m2 wf_demo_m2). Defined.

Lemma FullList_snapshot_is_independent_witness :
  exists l m',
    FullList demo_m2 = Done (l, m') /\
    lists demo_m2 !! l = None /\
    lists m' !! l = Some (snapshot demo_m2) /\
    (forall key, snapshot demo_m2 !! key = dto <$> entry demo_m2 key) /\
    forall os m'',
      run os m' = Done (tt, m'') -> lists m'' !! l = Some (snapshot demo_m2).
Proof. apply (FullList_snapshot_is_independent demo_m2 wf_demo_m2). Defined.


(** ** Keys without expiry, missing keys, deleted keys *)

Lemma expired_zero u it : ExpiresAt it = 0 -> expired u it = false.
Proof.
  intros Hz. unfold expired, IsZero. by rewrite bool_decide_eq_true_2.
Qed.

Lemma expired_spec u it :
  expired u it = true <-> ExpiresAt it <> 0 /\ ExpiresAt it < u.
Proof.
  unfold expired, IsZero, After.
  rewrite andb_true_iff, negb_true_iff, bool_decide_eq_false, bool_decide_eq_true.
  tauto.
Qed.

(** An entry stored with [ttl <= 0] has no expiry: [Get] finds it at every
    later time, after any whole firings of the ticker and after any
    deletion by a firing whose scan ran before the [Set], as long as that
    scan had not collected the key. *)
Theorem Set_without_ttl_never_expires m key value ttl now l t :
  wf m -> ttl <= 0 ->
  (forall ks, Late ks ∈ l -> key ∉ ks) ->
  returns ((Set_ key value ttl now ;; sweeps l ;; Get key t) m)
          (value, true).
Proof.
  intros Hw Httl Hlate.
  destruct (Set_entry key value ttl now m key Hw) as (m1 & H1 & Hw1 & _ & He).
  rewrite decide_True in He by reflexivity.
  rewrite bool_decide_eq_false_2 in He by lia.
  destruct (sweeps_entry l m1 key _ Hw1 He) as (m2 & H2 & Hw2 & _ & Hkeep).
  unfold bind. rewrite H1, H2.
  pose proof (Get_returns key t m2 Hw2) as HG.
  rewrite Hkeep in HG by (done || (intros; by apply expired_zero)).
  by rewrite expired_zero in HG.
Qed.

(** [Cleanup] deletes by key what its scan collected.  When the scan saw an
    expired entry of [key] and [Set(key)] runs before the deletion, the
    deletion removes the new entry: the next [Get(key)] does not find it,
    whatever its [ttl]. *)
Theorem Set_lost_to_sweep_in_flight m key it u value ttl now t :
  wf m -> entry m key = Some it ->
  ExpiresAt it <> 0 -> ExpiresAt it < u ->
  returns ((ks <- Cleanup_collect u ;; Set_ key value ttl now ;;
            Cleanup_delete ks ;; Get key t) m)
          ("", false).
Proof.
  intros Hw Hit Hnz Hpast.
  unfold bind at 1. rewrite Cleanup_collect_idle by apply Hw.
  set (ks := expired_keys u (items m) (map_to_list (data (store m)))).
  assert (Hin : key ∈ ks).
  { apply expired_keys_elem. unfold entry in Hit.
    destruct (data (store m) !! key) as [p|] eqn:Hp; [|done].
    exists p, it. split; [done|]. split; [done|]. by apply expired_spec. }
  destruct (Set_entry key value ttl now m key Hw) as (m1 & H1 & Hw1 & _ & _).
  destruct (Cleanup_delete_entry ks m1 key Hw1) as (m2 & H2 & Hw2 & He).
  rewrite decide_True in He by done.
  unfold bind. rewrite H1, H2.
  pose proof (Get_returns key t m2 Hw2) as HG. by rewrite He in HG.
Qed.

Lemma entry_delete m key k :
  entry (set_store (fun s => with_data (delete key (data s)) s) m) k =
    if decide (k = key) then None else entry m k.
Proof.
  destruct m as [[l1 d l2 ks] its lsts b]. unfold entry. cbn.
  destruct (decide (k = key)) as [->|Hne].
  - by rewrite lookup_delete_eq.
  - by rewrite lookup_delete_ne by congruence.
Qed.

Lemma entry_None_data m key :
  wf m -> entry m key = None -> data (store m) !! key = None.
Proof.
  intros Hw He. destruct (data (store m) !! key) as [p|] eqn:Hp; [|done].
  destruct (wf_entry m key p Hw Hp) as [it Hit].
  unfold entry in He. rewrite Hp in He. congruence.
Qed.

Lemma entry_Some_data m key it :
  entry m key = Some it -> is_Some (data (store m) !! key).
Proof.
  unfold entry. destruct (data (store m) !! key); [eauto|done].
Qed.

(** On a key the table does not hold, [Get], [GetViews] and [Delete] return
    their empty answers and change nothing. *)
Theorem missing_key_calls_change_nothing m key t :
  wf m -> entry m key = None ->
  Get key t m = Done (("", false), m) /\
  GetViews key m = Done (0, m) /\
  Delete key m = Done (tt, m).
Proof.
  intros Hw He. pose proof (entry_None_data m key Hw He) as Hd.
  split; [|split].
  - rewrite Get_idle by apply Hw. by rewrite Hd.
  - rewrite GetViews_idle by apply Hw. by rewrite Hd.
  - rewrite Delete_idle by apply Hw. rewrite (wf_open m Hw) at 2.
    destruct m as [[l1 d l2 ks] its lsts b]. destruct Hw as [[? ?] _ _ _ _].
    cbn in *. subst. unfold set_store, with_data. cbn.
    by rewrite delete_id.
Qed.

(** [Delete] makes the key unknown to [Get] and [GetViews], takes one off
    [Size] when the key was there, and leaves the other entries and the
    stack as they were. *)
Theorem Delete_forgets_key m key :
  wf m ->
  exists m',
    Delete key m = Done (tt, m') /\ wf m' /\
    (forall t, returns (Get key t m') ("", false)) /\
    returns (GetViews key m') 0 /\
    (forall k, k <> key -> entry m' k = entry m k) /\
    lastKeys (store m') = lastKeys (store m) /\
    returns (Size m')
      (Z.of_nat (size (data (store m)))
       - match entry m key with Some _ => 1 | None => 0 end).
Proof.
  intros Hw. destruct (exec_wf (ODelete key) m Hw) as (m' & Hrun & Hw').
  cbn [exec] in Hrun. exists m'. split; [exact Hrun|]. split; [exact Hw'|].
  rewrite Delete_idle in Hrun by apply Hw. injection Hrun as <-.
  assert (Hk : entry (set_store (fun s => with_data (delete key (data s)) s) m)
                 key = None).
  { rewrite entry_delete. by rewrite decide_True. }
  split; [|split; [|split; [|split]]].
  - intros t. pose proof (Get_returns key t _ Hw') as HG. by rewrite Hk in HG.
  - rewrite GetViews_entry, Hk by done. by eexists.
  - intros k Hne. rewrite entry_delete. by rewrite decide_False.
  - by destruct m as [[] ? ? ?].
  - rewrite Size_idle by apply Hw'. eexists. do 2 f_equal.
    replace (data (store (set_store
               (fun s => with_data (delete key (data s)) s) m)))
      with (delete key (data (store m))) by (by destruct m as [[] ? ? ?]).
    rewrite map_size_delete.
    destruct (entry m key) as [it|] eqn:He.
    + destruct (entry_Some_data m key it He) as [p Hp]. rewrite Hp.
      assert (size (data (store m)) <> 0%nat).
      { apply map_size_ne_0_lookup. eauto. }
      cbn. lia.
    + rewrite (entry_None_data m key Hw He). cbn. lia.
Qed.

(** [Get] on an entry whose time has passed removes it: the key is unknown
    from then on (whatever the clock reads), [Size] is one less, and the
    other entries and the stack are as before. *)
Theorem Get_removes_expired_entry m key t it :
  wf m -> entry m key = Some it -> ExpiresAt it <> 0 -> ExpiresAt it < t ->
  exists m',
    Get key t m = Done (("", false), m') /\ wf m' /\
    (forall t', returns (Get key t' m') ("", false)) /\
    (forall k, k <> key -> entry m' k = entry m k) /\
    lastKeys (store m') = lastKeys (store m) /\
    returns (Size m') (Z.of_nat (size (data (store m))) - 1).
Proof.
  intros Hw Hit Hnz Hpast.
  destruct (exec_wf (OGet key t) m Hw) as (m' & Hrun & Hw').
  cbn [exec] in Hrun. unfold bind in Hrun.
  assert (Hex : expired t it = true) by (by apply expired_spec).
  destruct (entry_Some_data m key it Hit) as [p Hp].
  assert (Hitp : items m !! p = Some it).
  { unfold entry in Hit. by rewrite Hp in Hit. }
  rewrite Get_idle in * by apply Hw. rewrite Hp, Hitp, Hex in *.
  injection Hrun as <-.
  eexists. split; [reflexivity|]. split; [exact Hw'|].
  assert (Hk : entry (set_store (fun s => with_data (delete key (data s)) s) m)
                 key = None).
  { rewrite entry_delete. by rewrite decide_True. }
  split; [|split; [|split]].
  - intros t'. pose proof (Get_returns key t' _ Hw') as HG. by rewrite Hk in HG.
  - intros k Hne. rewrite entry_delete. by rewrite decide_False.
  - by destruct m as [[] ? ? ?].
  - rewrite Size_idle by apply Hw'. eexists. do 2 f_equal.
    replace (data (store (set_store
               (fun s => with_data (delete key (data s)) s) m)))
      with (delete key (data (store m))) by (by destruct m as [[] ? ? ?]).
    rewrite map_size_delete, Hp.
    assert (size (data (store m)) <> 0%nat).
    { apply map_size_ne_0_lookup. eauto. }
    cbn. lia.
Qed.

(** A [Get] that finds its key adds one view to that entry and changes
    nothing else: not the table, not the stack, not another entry. *)
Theorem Get_hit_touches_one_counter m key t it :
  wf m -> entry m key = Some it ->
  ~ (ExpiresAt it <> 0 /\ ExpiresAt it < t) ->
  exists m',
    Get key t m = Done ((Value it, true), m') /\ wf m' /\
    entry m' key = Some (viewed 1 it) /\
    (forall k, k <> key -> entry m' k = entry m k) /\
    store m' = store m /\ lists m' = lists m.
Proof.
  intros Hw Hit Hlive.
  destruct (exec_wf (OGet key t) m Hw) as (m' & Hrun & Hw').
  cbn [exec] in Hrun. unfold bind in Hrun.
  assert (Hex : expired t it = false).
  { destruct (expired t it) eqn:E; [|done]. by apply expired_spec in E. }
  destruct (entry_Some_data m key it Hit) as [p Hp].
  assert (Hitp : items m !! p = Some it).
  { unfold entry in Hit. by rewrite Hp in Hit. }
  rewrite Get_idle in * by apply Hw. rewrite Hp, Hitp, Hex in *.
  injection Hrun as <-.
  eexists. split; [reflexivity|]. split; [exact Hw'|].
  split; [|split; [|split]].
  - unfold entry. cbn [set_items store items]. rewrite Hp.
    by rewrite lookup_insert_eq.
  - intros k Hne. unfold entry. cbn [set_items store items].
    destruct (data (store m) !! k) as [q|] eqn:Hq; [|done].
    rewrite lookup_insert_ne; [done|].
    intros <-. apply Hne. eapply wf_unshared; eauto.
  - by destruct m.
  - by destruct m.
Qed.

(** [Set] replaces the entry of its key wholesale and touches no other
    entry; [Size] grows by one exactly when the key is new. *)
Theorem Set_stores_one_entry m key value ttl now :
  wf m ->
  exists m',
    Set_ key value ttl now m = Done (tt, m') /\ wf m' /\
    entry m' key =
      Some {| Value := value;
              ExpiresAt := if bool_decide (0 < ttl) then now + ttl else 0;
              Views := 0 |} /\
    (forall k, k <> key -> entry m' k = entry m k) /\
    returns (Size m')
      (Z.of_nat (size (data (store m)))
       + match entry m key with Some _ => 0 | None => 1 end).
Proof.
  intros Hw.
  destruct (Set_entry key value ttl now m key Hw) as (m' & H1 & Hw' & _ & He).
  exists m'. split; [exact H1|]. split; [exact Hw'|].
  rewrite decide_True in He by reflexivity. split; [exact He|]. split.
  - intros k Hne.
    destruct (Set_entry key value ttl now m k Hw) as (m2 & H2 & _ & _ & Hk).
    rewrite H1 in H2. injection H2 as <-. by rewrite decide_False in Hk.
  - rewrite Size_idle by apply Hw'. eexists. do 2 f_equal.
    rewrite Set_idle in H1 by apply Hw. injection H1 as <-. cbn [store data].
    rewrite map_size_insert.
    destruct (entry m key) as [it|] eqn:E.
    + destruct (entry_Some_data m key it E) as [p ->]. cbn. lia.
    + rewrite (entry_None_data m key Hw E). cbn. lia.
Qed.

(** ** Sweeps compose *)

Lemma expired_mono u1 u2 it :
  u1 <= u2 -> expired u1 it = true -> expired u2 it = true.
Proof. rewrite !expired_spec. lia. Qed.

Lemma Cleanup_tick_absorbs u t m :
  wf m -> u <= t ->
  (Cleanup_tick u ;; Cleanup_tick t) m = Cleanup_tick t m.
Proof.
  intros Hw Hu. destruct (exec_wf (OTick u) m Hw) as (m1 & H1 & Hw1).
  cbn [exec] in H1. unfold bind. rewrite H1.
  rewrite Cleanup_tick_idle in H1 by apply Hw. injection H1 as <-.
  rewrite !Cleanup_tick_idle by (apply Hw || apply Hw1).
  assert (Hsw : swept t (set_store (with_data (swept u m)) m) = swept t m).
  { apply map_eq. intros k. rewrite !swept_lookup by (apply Hw || apply Hw1).
    replace (data (store (set_store (with_data (swept u m)) m)))
      with (swept u m) by (by destruct m as [[] ? ? ?]).
    replace (items (set_store (with_data (swept u m)) m))
      with (items m) by (by destruct m as [[] ? ? ?]).
    rewrite swept_lookup by apply Hw.
    destruct (data (store m) !! k) as [p|]; [|done].
    destruct (items m !! p) as [it|] eqn:Hit; [|by rewrite Hit].
    destruct (expired u it) eqn:E1.
    - by rewrite (expired_mono u t it Hu E1).
    - by rewrite Hit. }
  rewrite Hsw. by destruct m as [[] ? ? ?].
Qed.

(** A run of sweeps leaves exactly what its last sweep alone would leave,
    as long as no earlier sweep read a later clock. *)
Theorem Cleanup_ticks_absorbed_by_last us t m :
  wf m -> (forall u, u ∈ us -> u <= t) ->
  Cleanup ((Tick <$> us) ++ [Tick t]) m = Cleanup [Tick t] m.
Proof.
  revert m. induction us as [|u us IH]; intros m Hw Hus; [done|].
  cbn [fmap list_fmap app Cleanup].
  destruct (exec_wf (OTick u) m Hw) as (m1 & H1 & Hw1). cbn [exec] in H1.
  unfold bind at 1. rewrite H1.
  change (Cleanup (list_fmap Time event Tick us ++ [Tick t]) m1)
    with (Cleanup ((Tick <$> us) ++ [Tick t]) m1).
  rewrite IH by (done || (intros; apply Hus; by right)).
  cbn [Cleanup]. pose proof (Cleanup_tick_absorbs u t m Hw) as Ha.
  unfold bind in Ha at 1. rewrite H1 in Ha.
  unfold bind. rewrite Ha by (apply Hus; left). reflexivity.
Qed.

(** ** The stack helpers *)

Lemma pushed_snoc value l :
  exists l',
    pushed value l = (l' ++ [value])%list /\
    ((length l < 30)%nat -> l' = l) /\
    ((30 <= length l)%nat -> l' = drop 1 l).
Proof.
  unfold pushed. rewrite length_app. cbn [length]. case_bool_decide as H.
  - exists (drop 1 l). split; [|split; [lia|done]].
    rewrite drop_app_le; [done|]. destruct l; cbn in *; lia.
  - exists l. split; [done|]. split; [done|lia].
Qed.

(** [push v] puts [v] on top; followed by [pop] it gives the stack back as
    long as fewer than 30 keys were held, and on a full stack it drops the
    oldest key; [pop] on an empty stack does nothing. *)
Theorem push_pop_top_compose m value :
  wf m ->
  returns ((push value ;; top) m) value /\
  ((length (lastKeys (store m)) < 30)%nat ->
   (push value ;; pop) m = Done (tt, m)) /\
  ((length (lastKeys (store m)) = 30)%nat ->
   exists m',
     push value m = Done (tt, m') /\
     lastKeys (store m') = (drop 1 (lastKeys (store m)) ++ [value])%list) /\
  (lastKeys (store m) = [] -> pop m = Done (tt, m)).
Proof.
  intros Hw. pose proof (wf_idle m Hw) as Hi.
  destruct (exec_wf (OPush value) m Hw) as (m1 & H1 & Hw1). cbn [exec] in H1.
  assert (Hl1 : lastKeys (store m1) = pushed value (lastKeys (store m))).
  { rewrite push_idle in H1 by done. injection H1 as <-.
    by destruct m as [[] ? ? ?]. }
  destruct (pushed_snoc value (lastKeys (store m))) as (l' & Hp & Hlt & Hge).
  split; [|split; [|split]].
  - unfold bind. rewrite H1, top_idle by apply Hw1.
    rewrite Hl1, Hp, slice_last_snoc. by eexists.
  - intros Hlen. unfold bind. rewrite H1, pop_idle by apply Hw1.
    rewrite Hl1, Hp, slice_init_snoc, (Hlt Hlen).
    rewrite push_idle in H1 by done. injection H1 as <-.
    rewrite (wf_open m Hw) at 2. by destruct m as [[] ? ? ?].
  - intros Hlen. exists m1. split; [exact H1|].
    rewrite Hl1, Hp, Hge by lia. reflexivity.
  - intros Hnil. rewrite pop_idle by done.
    destruct m as [[l1 d l2 ks] its lsts b]. destruct Hi as [? ?].
    cbn in *. by subst.
Qed.

(** [RetrieveLastKey] right after [Set(key)] returns [key] and leaves the
    table without it, other entries untouched; the stack does not follow the
    table, so the key is returned just the same when [Delete] already
    removed its entry. *)
Theorem Set_then_RetrieveLastKey m key value ttl now :
  wf m ->
  (exists m',
     (Set_ key value ttl now ;; RetrieveLastKey) m = Done (key, m') /\
     wf m' /\ entry m' key = None /\
     (forall k, k <> key -> entry m' k = entry m k) /\
     ((length (lastKeys (store m)) < 30)%nat ->
      lastKeys (store m') = lastKeys (store m))) /\
  returns ((Set_ key value ttl now ;; Delete key ;; RetrieveLastKey) m) key.
Proof.
  intros Hw.
  destruct (Set_entry key value ttl now m key Hw) as (m1 & H1 & Hw1 & Hl1 & _).
  destruct (pushed_snoc key (lastKeys (store m))) as (l' & Hp & Hlt & _).
  rewrite Hp in Hl1.
  assert (Hne : lastKeys (store m1) <> []).
  { rewrite Hl1. by destruct l'. }
  split.
  - destruct (exec_wf ORetrieveLastKey m1 Hw1) as (m2 & H2 & Hw2).
    cbn [exec] in H2. unfold bind in H2.
    rewrite RetrieveLastKey_idle in H2 by apply Hw1.
    rewrite bool_decide_eq_false_2 in H2 by done. injection H2 as <-.
    unfold bind. rewrite H1, RetrieveLastKey_idle by apply Hw1.
    rewrite bool_decide_eq_false_2 by done.
    rewrite Hl1, slice_last_snoc. eexists. split; [reflexivity|].
    assert (Hent : forall k,
      entry (set_store (fun s =>
               with_data (delete (slice_last (lastKeys s)) (data s))
                 (with_lastKeys (slice_init (lastKeys s)) s)) m1) k
      = if decide (k = key) then None else entry m1 k).
    { intros k. destruct m1 as [[l1 d l2 ks] its lsts b].
      cbn [store lastKeys] in Hl1. subst ks.
      unfold entry, set_store, with_data, with_lastKeys.
      cbn [store data items lastKeys]. rewrite slice_last_snoc.
      destruct (decide (k = key)) as [->|Hk].
      - by rewrite lookup_delete_eq.
      - by rewrite lookup_delete_ne by congruence. }
    split; [exact Hw2|]. split; [|split].
    + rewrite Hent. by rewrite decide_True.
    + intros k Hk. rewrite Hent, decide_False by done.
      destruct (Set_entry key value ttl now m k Hw) as (m3 & H3 & _ & _ & He).
      rewrite H1 in H3. injection H3 as <-. by rewrite decide_False in He.
    + intros Hlen. rewrite <- (Hlt Hlen).
      destruct m1 as [[l1 d l2 ks] its lsts b].
      cbn [store lastKeys] in Hl1. subst ks.
      unfold set_store, with_data, with_lastKeys. cbn [store lastKeys].
      by rewrite slice_init_snoc.
  - destruct (exec_wf (ODelete key) m1 Hw1) as (m2 & H2 & Hw2).
    cbn [exec] in H2. unfold bind. rewrite H1, H2.
    rewrite RetrieveLastKey_idle by apply Hw2.
    assert (Hl2 : lastKeys (store m2) = lastKeys (store m1)).
    { rewrite Delete_idle in H2 by apply Hw1. injection H2 as <-.
      by destruct m1 as [[] ? ? ?]. }
    rewrite Hl2, bool_decide_eq_false_2 by done.
    rewrite Hl1, slice_last_snoc. by eexists.
Qed.

(** ** [FullList] against [Size] and [GetViews] *)

Lemma snapshot_size m : wf m -> size (snapshot m) = size (data (store m)).
Proof.
  intros Hw. rewrite <- !size_dom. f_equal. apply set_eq. intros k.
  rewrite !elem_of_dom. unfold snapshot. rewrite lookup_omap.
  destruct (data (store m) !! k) as [p|] eqn:Hp; cbn.
  - destruct (wf_entry m k p Hw Hp) as [it ->]. cbn. split; eauto.
  - split; intros [? ?]; done.
Qed.

(** [FullList] changes neither the store nor any counter; the map it
    returns lists every key of the table, expired or not, as many as [Size]
    counts, each with the views [GetViews] reports. *)
Theorem FullList_agrees_with_Size_and_GetViews m :
  wf m ->
  exists l m' c,
    FullList m = Done (l, m') /\ lists m' !! l = Some c /\
    store m' = store m /\ items m' = items m /\
    returns (Size m) (Z.of_nat (size c)) /\
    forall key,
      (c !! key = None <-> entry m key = None) /\
      returns (GetViews key m)
        (match c !! key with Some d => dtoViews d | None => 0 end).
Proof.
  intros Hw. rewrite FullList_idle by apply Hw.
  exists (brk m), (set_brk (Pos.succ (brk m))
                     (set_lists <[brk m:=snapshot m]> m)), (snapshot m).
  split; [reflexivity|]. split; [cbn; apply lookup_insert_eq|].
  split; [by destruct m|]. split; [by destruct m|]. split.
  - rewrite Size_idle, snapshot_size by (done || apply Hw). by eexists.
  - intros key. rewrite snapshot_lookup, GetViews_entry by done.
    destruct (entry m key) as [it|]; cbn; split; try done. all: by eexists.
Qed.

(** ** Calls made while other goroutines hold read locks *)

(** While readers hold [mu], the calls that only read it ([Size],
    [GetViews], a [Get] that finds its key) go through and leave the lock
    as they found it; the calls that need the write lock ([Set], [Delete],
    [Reset], a [Get] that has to remove an expired entry) cannot proceed. *)
Theorem calls_while_readers_hold_mu n m key value ttl now t :
  readers_hold n m ->
  Size m = Done (Z.of_nat (size (data (store m))), m) /\
  GetViews key m =
    Done (match entry m key with Some it => Views it | None => 0 end, m) /\
  (forall it, entry m key = Some it -> expired t it = false ->
     exists m', Get key t m = Done ((Value it, true), m') /\
                store m' = store m) /\
  (forall it, entry m key = Some it -> expired t it = true ->
     Get key t m = Blocked) /\
  Set_ key value ttl now m = Blocked /\
  Delete key m = Blocked /\
  Reset m = Blocked.
Proof.
  intros (Hmu & Hst & Hv). destruct m as [[l1 d l2 ks] its lsts b].
  cbn in Hmu, Hst, Hv. subst l1 l2. unfold entry. cbn [store data items].
  split; [reflexivity|]. split; [|split; [|split; [|repeat split]]].
  - unfold GetViews. step. destruct (d !! key) as [p|] eqn:Hp; [|reflexivity].
    destruct (Hv key p Hp) as [it Hit]. unfold load. cbn. by rewrite Hit.
  - intros it Hit Hex. unfold Get. step.
    destruct (d !! key) as [p|] eqn:Hp; [|done].
    unfold load. cbn. rewrite Hit. unfold expired in Hex. rewrite Hex.
    unfold Views_Add, load. step. rewrite Hit. eexists. split; reflexivity.
  - intros it Hit Hex. unfold Get. step.
    destruct (d !! key) as [p|] eqn:Hp; [|done].
    unfold load. cbn. rewrite Hit. unfold expired in Hex. rewrite Hex.
    reflexivity.
Qed.

(** ** Every run from a new store *)

Lemma exec_keeps_bound o m m' :
  wf m -> bounded m -> exec o m = Done (tt, m') -> bounded m'.
Proof.
  intros Hw Hb Hrun. unfold bounded in *.
  destruct (exec_stack o m m' Hw Hrun) as [E|[E|[E|[k E]]]]; rewrite E.
  - exact Hb.
  - pose proof (slice_init_length (lastKeys (store m))). lia.
  - cbn. lia.
  - by apply pushed_length.
Qed.

Lemma run_keeps_bound os m :
  wf m -> bounded m ->
  exists m', run os m = Done (tt, m') /\ wf m' /\ bounded m'.
Proof.
  revert m. induction os as [|o os IH]; intros m Hw Hb; cbn [run].
  - exists m. unfold ret. auto.
  - destruct (exec_wf o m Hw) as (m1 & H1 & Hw1).
    pose proof (exec_keeps_bound o m m1 Hw Hb H1) as Hb1.
    destruct (IH m1 Hw1 Hb1) as (m2 & H2 & Hw2 & Hb2).
    exists m2. unfold bind. rewrite H1. auto.
Qed.

(** Whatever calls are made on a new store, in whatever order, each of them
    returns: none panics, none waits for a lock the store itself holds; the
    locks are free again afterwards and the stack holds at most 30 keys. *)
Theorem every_run_from_NewStore_returns os :
  exists m',
    run os NewStore = Done (tt, m') /\
    mu (store m') = Free /\ stackMutex (store m') = Unlocked /\
    (length (lastKeys (store m')) <= 30)%nat.
Proof.
  destruct (run_keeps_bound os NewStore wf_NewStore) as (m' & Hrun & Hw & Hb).
  { unfold bounded. cbn. lia. }
  exists m'. split; [exact Hrun|]. destruct (wf_idle m' Hw) as [? ?]. auto.
Qed.

(** ** The statements of this part at concrete inputs *)

Lemma Set_without_ttl_never_expires_witness :
  returns ((Set_ "a" "1" 0 100 ;;
            sweeps [Late ["b"]; Whole 150; Late []; Whole 160] ;;
            Get "a" 1000000000000) demo_m2)
          ("1", true).
Proof.
  apply (Set_without_ttl_never_expires demo_m2 "a" "1" 0 100
           [Late ["b"]; Whole 150; Late []; Whole 160] 1000000000000).
  - apply wf_demo_m2.
  - lia.
  - intros ks Hks.
    apply elem_of_cons in Hks as [Hks|Hks].
    { injection Hks as ->. intros Hin.
      apply elem_of_cons in Hin as [Hin|Hin]; [discriminate|].
      by apply elem_of_nil in Hin. }
    apply elem_of_cons in Hks as [Hks|Hks]; [discriminate|].
    apply elem_of_cons in Hks as [Hks|Hks].
    { injection Hks as ->. apply not_elem_of_nil. }
    apply elem_of_cons in Hks as [Hks|Hks]; [discriminate|].
    by apply elem_of_nil in Hks.
Defined.

Lemma Set_lost_to_sweep_in_flight_witness :
  returns ((ks <- Cleanup_collect 200 ;; Set_ "a" "2" 0 201 ;;
            Cleanup_delete ks ;; Get "a" 202) demo_m3)
          ("", false).
Proof.
  apply (Set_lost_to_sweep_in_flight demo_m3 "a" demo_item 200 "2" 0 201 202
           wf_demo_m3).
  - vm_compute. reflexivity.
  - discriminate.
  - reflexivity.
Defined.

Lemma missing_key_calls_change_nothing_witness :
  Get "zz" 7 demo_m2 = Done (("", false), demo_m2) /\
  GetViews "zz" demo_m2 = Done (0, demo_m2) /\
  Delete "zz" demo_m2 = Done (tt, demo_m2).
Proof.
  apply (missing_key_calls_change_nothing demo_m2 "zz" 7 wf_demo_m2).
  vm_compute. reflexivity.
Defined.

Lemma Delete_forgets_key_witness :
  exists m',
    Delete "a" demo_m2 = Done (tt, m') /\ wf m' /\
    (forall t, returns (Get "a" t m') ("", false)) /\
    returns (GetViews "a" m') 0 /\
    (forall k, k <> "a" -> entry m' k = entry demo_m2 k) /\
    lastKeys (store m') = lastKeys (store demo_m2) /\
    returns (Size m')
      (Z.of_nat (size (data (store demo_m2)))
       - match entry demo_m2 "a" with Some _ => 1 | None => 0 end).
Proof. apply (Delete_forgets_key demo_m2 "a" wf_demo_m2). Defined.

Example demo_m3_entry : entry demo_m3 "a" = Some demo_item.
Proof. vm_compute. reflexivity. Qed.

Lemma Get_removes_expired_entry_witness :
  exists m',
    Get "a" 200 demo_m3 = Done (("", false), m') /\ wf m' /\
    (forall t', returns (Get "a" t' m') ("", false)) /\
    (forall k, k <> "a" -> entry m' k = entry demo_m3 k) /\
    lastKeys (store m') = lastKeys (store demo_m3) /\
    returns (Size m') (Z.of_nat (size (data (store demo_m3))) - 1).
Proof.
  apply (Get_removes_expired_entry demo_m3 "a" 200 demo_item wf_demo_m3).
  - vm_compute. reflexivity.
  - discriminate.
  - reflexivity.
Defined.

Lemma Get_hit_touches_one_counter_witness :
  exists m',
    Get "a" 110 demo_m3 = Done ((Value demo_item, true), m') /\ wf m' /\
    entry m' "a" = Some (viewed 1 demo_item) /\
    (forall k, k <> "a" -> entry m' k = entry demo_m3 k) /\
    store m' = store demo_m3 /\ lists m' = lists demo_m3.
Proof.
  apply (Get_hit_touches_one_counter demo_m3 "a" 110 demo_item wf_demo_m3).
  - vm_compute. reflexivity.
  - intros [_ H]. cbn in H. lia.
Defined.

Lemma Set_stores_one_entry_witness :
  exists m',
    Set_ "c" "3" 5 100 demo_m2 = Done (tt, m') /\ wf m' /\
    entry m' "c" =
      Some {| Value := "3";
              ExpiresAt := if bool_decide (0 < 5) then 100 + 5 else 0;
              Views := 0 |} /\
    (forall k, k <> "c" -> entry m' k = entry demo_m2 k) /\
    returns (Size m')
      (Z.of_nat (size (data (store demo_m2)))
       + match entry demo_m2 "c" with Some _ => 0 | None => 1 end).
Proof. apply (Set_stores_one_entry demo_m2 "c" "3" 5 100 wf_demo_m2). Defined.

Lemma Cleanup_ticks_absorbed_by_last_witness :
  Cleanup ((Tick <$> [105; 150]) ++ [Tick 200]) demo_m3
  = Cleanup [Tick 200] demo_m3.
Proof.
  apply (Cleanup_ticks_absorbed_by_last [105; 150] 200 demo_m3 wf_demo_m3).
  intros u Hu.
  apply elem_of_cons in Hu as [->|Hu]; [lia|].
  apply elem_of_cons in Hu as [->|Hu]; [lia|].
  by apply elem_of_nil in Hu.
Defined.

Lemma push_pop_top_compose_witness :
  returns ((push "k" ;; top) demo_m2) "k" /\
  ((length (lastKeys (store demo_m2)) < 30)%nat ->
   (push "k" ;; pop) demo_m2 = Done (tt, demo_m2)) /\
  ((length (lastKeys (store demo_m2)) = 30)%nat ->
   exists m',
     push "k" demo_m2 = Done (tt, m') /\
     lastKeys (store m') = (drop 1 (lastKeys (store demo_m2)) ++ ["k"])%list) /\
  (lastKeys (store demo_m2) = [] -> pop demo_m2 = Done (tt, demo_m2)).
Proof. apply (push_pop_top_compose demo_m2 "k" wf_demo_m2). Defined.

Lemma Set_then_RetrieveLastKey_witness :
  (exists m',
     (Set_ "a" "9" 0 20 ;; RetrieveLastKey) demo_m2 = Done ("a", m') /\
     wf m' /\ entry m' "a" = None /\
     (forall k, k <> "a" -> entry m' k = entry demo_m2 k) /\
     ((length (lastKeys (store demo_m2)) < 30)%nat ->
      lastKeys (store m') = lastKeys (store demo_m2))) /\
  returns ((Set_ "a" "9" 0 20 ;; Delete "a" ;; RetrieveLastKey) demo_m2) "a".
Proof. apply (Set_then_RetrieveLastKey demo_m2 "a" "9" 0 20 wf_demo_m2). Defined.

Lemma FullList_agrees_with_Size_and_GetViews_witness :
  exists l m' c,
    FullList demo_m3 = Done (l, m') /\ lists m' !! l = Some c /\
    store m' = store demo_m3 /\ items m' = items demo_m3 /\
    returns (Size demo_m3) (Z.of_nat (size c)) /\
    forall key,
      (c !! key = None <-> entry demo_m3 key = None) /\
      returns (GetViews key demo_m3)
        (match c !! key with Some d => dtoViews d | None => 0 end).
Proof. apply (FullList_agrees_with_Size_and_GetViews demo_m3 wf_demo_m3). Defined.

Lemma readers_hold_demo_m4 : readers_hold 1 demo_m4.
Proof.
  split; [reflexivity|]. split; [reflexivity|].
  intros k p H. exact (wf_cells demo_m3 wf_demo_m3 k p H).
Qed.

Lemma calls_while_readers_hold_mu_witness :
  Size demo_m4 = Done (Z.of_nat (size (data (store demo_m4))), demo_m4) /\
  GetViews "a" demo_m4 =
    Done (match entry demo_m4 "a" with Some it => Views it | None => 0 end,
          demo_m4) /\
  (forall it, entry demo_m4 "a" = Some it -> expired 200 it = false ->
     exists m', Get "a" 200 demo_m4 = Done ((Value it, true), m') /\
                store m' = store demo_m4) /\
  (forall it, entry demo_m4 "a" = Some it -> expired 200 it = true ->
     Get "a" 200 demo_m4 = Blocked) /\
  Set_ "a" "2" 0 200 demo_m4 = Blocked /\
  Delete "a" demo_m4 = Blocked /\
  Reset demo_m4 = Blocked.
Proof.
  apply (calls_while_readers_hold_mu 1 demo_m4 "a" "2" 0 200 200
           readers_hold_demo_m4).
Defined.

End V1Spec.

(** * The original store: what its calls do *)

Module V2Spec.
Import V2.
Local Open Scope go_scope.

(** [Get] locks its copy of [mu] and then calls [Size], which receives a
    copy of the locked lock and waits for it: [Get] never returns. *)
Theorem Get_never_returns key now s m : Get key now s m = Blocked.
Proof.
  unfold Get, method, bind, mu_on, on_field. cbn.
  destruct (mu s); try reflexivity.
Qed.

(** [NewStore] leaves [data] nil, and [Set] assigns into it. *)
Theorem Set_on_nil_map_panics key value ttl now s m :
  data s = None -> Set_ key value ttl now s m = Panic.
Proof.
  intros Hd. destruct s as [l1 d l2 ks]. cbn in Hd. subst. reflexivity.
Qed.

(** [push] appends to its own copy of the slice header: nothing the caller
    can see changes, and the copy is never cut back to 30 keys. *)
Theorem push_changes_nothing value s m :
  stackMutex s = Unlocked ->
  push value s m = Done (tt, m) /\
  push_body value (s, m) =
    Done (tt, (with_lastKeys (lastKeys s ++ [value]) s, m)).
Proof.
  intros Hl. destruct s as [l1 d l2 ks]. cbn in Hl. subst. split; reflexivity.
Qed.

Lemma Set_on_nil_map_panics_witness :
  Set_ "a" "1" 0 100 NewStore emptyMem = Panic.
Proof. apply (Set_on_nil_map_panics "a" "1" 0 100 NewStore emptyMem). reflexivity. Defined.

Lemma push_changes_nothing_witness :
  push "a" NewStore emptyMem = Done (tt, emptyMem) /\
  push_body "a" (NewStore, emptyMem) =
    Done (tt, (with_lastKeys (lastKeys NewStore ++ ["a"]) NewStore, emptyMem)).
Proof. apply (push_changes_nothing "a" NewStore emptyMem). reflexivity. Defined.

(** C2. A pass of the original [Cleanup] at time 100 deletes the entry that
    expires at 200 and keeps the one that expired at 50. *)
Theorem Cleanup_pass_deletes_unexpired :
  Cleanup_pass (fun _ => 100) (store_with [])
    (mem_with {[ "fresh" := item "v" 200; "stale" := item "w" 50;
                 "forever" := item "x" 0 ]})
  = Done (tt, mem_with {[ "stale" := item "w" 50; "forever" := item "x" 0 ]}).
Proof. vm_compute. reflexivity. Qed.

(** C4. On a new store the original [Set] panics; on a store whose table
    was initialised it returns, and the stack is as empty as before. *)
Theorem Set_does_not_reach_stack :
  Set_ "k1" "v" 0 100 NewStore emptyMem = Panic /\
  returns ((Set_ "k1" "v" 0 100 (store_with []) ;;
            RetrieveLastKey (store_with [])) (mem_with ∅)) "".
Proof. split; [reflexivity|]. vm_compute. eexists. reflexivity. Qed.

(** C5. With the stack [a; b] and only [a] left in the table, the original
    [RetrieveLastKey] returns and deletes [a], not the newest key [b]; the
    stack is not shortened, and the next call panics. *)
Theorem RetrieveLastKey_takes_wrong_key :
  RetrieveLastKey (store_with ["a"; "b"]) (mem_with {[ "a" := item "1" 0 ]})
    = Done ("a", mem_with ∅) /\
  RetrieveLastKey (store_with ["a"; "b"]) (mem_with ∅) = Panic.
Proof. split; vm_compute; reflexivity. Qed.

(** C6. The original [Reset] replaces the table of its own copy of the
    store: afterwards [Size] is still 1 and [RetrieveLastKey] still returns
    the key. *)
Theorem Reset_leaves_store_filled :
  returns ((Reset (store_with ["a"]) ;; Size (store_with ["a"]))
             (mem_with {[ "a" := item "1" 0 ]})) 1 /\
  returns ((Reset (store_with ["a"]) ;; RetrieveLastKey (store_with ["a"]))
             (mem_with {[ "a" := item "1" 0 ]})) "a".
Proof. split; vm_compute; eexists; reflexivity. Qed.

(** C7. The original [FullList] returns the table itself: after
    [Delete("a")] the map the caller received has lost the entry. *)
Theorem FullList_returns_the_table :
  FullList (store_with []) (mem_with {[ "a" := item "1" 0 ]})
    = Done (Some 1%positive, mem_with {[ "a" := item "1" 0 ]}) /\
  Delete "a" (store_with []) (mem_with {[ "a" := item "1" 0 ]})
    = Done (tt, mem_with ∅) /\
  maps (mem_with {[ "a" := item "1" 0 ]}) !! 1%positive
    = Some {[ "a" := item "1" 0 ]} /\
  maps (mem_with ∅) !! 1%positive = Some ∅.
Proof. repeat split; vm_compute; reflexivity. Qed.

(** C8. The original [top] indexes the stack with the size of the table:
    with one key in the stack and an empty table it panics, and with two
    keys in the stack and one entry in the table it returns the older
    key. *)
Theorem top_indexes_by_table_size :
  top (store_with ["a"]) (mem_with ∅) = Panic /\
  returns (top (store_with ["a"; "b"]) (mem_with {[ "x" := item "1" 0 ]})) "a".
Proof. split; [reflexivity|]. vm_compute. eexists. reflexivity. Qed.


(** ** The original store on an initialised table *)

Ltac go2 :=
  repeat progress
    (unfold method, bind, call, self, self_set, gets, modify, ret, panic,
       mu_on, stackMutex_on, on_field, map_contents, data_len, data_lookup,
       data_delete, data_assign, Println, under_local_Mutex;
     cbn).

Lemma set_maps_insert_insert l c c' m :
  set_maps (insert l c) (set_maps (insert l c') m) = set_maps (insert l c) m.
Proof. destruct m. unfold set_maps. cbn. by rewrite insert_insert_eq. Qed.

Lemma set_maps_insert_id l c m :
  maps m !! l = Some c -> set_maps (insert l c) m = m.
Proof. intros H. destruct m. unfold set_maps. cbn in *. by rewrite insert_id. Qed.

Lemma data_delete_frame key s m l c :
  data s = Some l -> maps m !! l = Some c ->
  data_delete key (s, m) = Done (tt, (s, set_maps (insert l (delete key c)) m)).
Proof.
  intros Hd Hm. unfold data_delete, bind, self, gets, map_contents, modify.
  cbn. rewrite Hd. cbn. by rewrite Hm.
Qed.

Lemma range_pass now kvs s m l cur :
  data s = Some l -> maps m !! l = Some cur ->
  for_range kvs
    (fun '(k, item) (_ : unit) =>
       if negb (IsZero (ExpiresAt item)) && Before (now k) (ExpiresAt item)
       then data_delete k
       else ret tt)
    tt (s, m)
  = Done (tt, (s, set_maps (insert l (foldl (pass_step now) cur kvs)) m)).
Proof.
  intros Hd. revert m cur. induction kvs as [|[k it] kvs IH]; intros m cur Hm.
  - cbn. unfold ret. by rewrite set_maps_insert_id.
  - cbn [for_range foldl]. unfold bind. unfold pass_step at 2, still_valid.
    cbn [fst snd]. destruct (negb _ && _).
    + rewrite (data_delete_frame k s m l cur Hd Hm).
      rewrite (IH _ (delete k cur)).
      * by rewrite set_maps_insert_insert.
      * destruct m. cbn. apply lookup_insert_eq.
    + unfold ret at 1. by rewrite (IH m cur Hm).
Qed.

Lemma pass_lookup now kvs (cur : gmap string Item) k :
  NoDup kvs.*1 ->
  foldl (pass_step now) cur kvs !! k =
    match (list_to_map kvs : gmap string Item) !! k with
    | Some it => if still_valid now k it then None else cur !! k
    | None => cur !! k
    end.
Proof.
  revert cur. induction kvs as [|[k0 it0] kvs IH]; intros cur Hnd.
  - by rewrite list_to_map_nil, lookup_empty.
  - rewrite fmap_cons in Hnd. apply NoDup_cons in Hnd as [Hk0 Hnd].
    cbn [fst] in Hk0. cbn [foldl list_to_map foldr]. rewrite IH by done.
    unfold pass_step. cbn [fst snd].
    destruct (decide (k = k0)) as [->|Hne].
    + rewrite lookup_insert_eq, (not_elem_of_list_to_map_1 _ _ Hk0).
      destruct (still_valid now k0 it0); [apply lookup_delete_eq|done].
    + rewrite lookup_insert_ne by congruence.
      destruct (still_valid now k0 it0); [|done].
      by rewrite lookup_delete_ne by congruence.
Qed.

Lemma top_empty s m : lastKeys s = [] -> top s m = Done ("", m).
Proof. destruct s. cbn. intros ->. reflexivity. Qed.

Lemma pop_empty s m : lastKeys s = [] -> pop s m = Done (tt, m).
Proof. destruct s. cbn. intros ->. reflexivity. Qed.

Lemma Delete_table key s m l c :
  data s = Some l -> maps m !! l = Some c ->
  Delete key s m = Done (tt, set_maps (insert l (delete key c)) m).
Proof.
  intros Hd Hm. unfold Delete, method, under_local_Mutex. cbn [Mutex_Lock].
  by rewrite (data_delete_frame key s m l c Hd Hm).
Qed.

Lemma Delete_nil key s m : data s = None -> Delete key s m = Done (tt, m).
Proof. destruct s. cbn. intros ->. reflexivity. Qed.

(** A pass of the original [Cleanup] keeps exactly the entries that have no
    expiry or whose expiry is not after the clock: every entry that is still
    to expire is deleted. *)
Theorem Cleanup_pass_keeps_expired_only now s m l c :
  data s = Some l -> maps m !! l = Some c ->
  exists c',
    Cleanup_pass now s m = Done (tt, set_maps (insert l c') m) /\
    forall k it,
      c' !! k = Some it <->
      c !! k = Some it /\ (ExpiresAt it = 0 \/ ExpiresAt it <= now k).
Proof.
  intros Hd Hm. exists (foldl (pass_step now) c (map_to_list c)). split.
  - unfold Cleanup_pass, method, bind, self, gets, map_contents. cbn.
    rewrite Hd. cbn. rewrite Hm.
    by rewrite (range_pass now (map_to_list c) s m l c Hd Hm).
  - intros k it. rewrite pass_lookup by apply NoDup_fst_map_to_list.
    rewrite list_to_map_to_list.
    destruct (c !! k) as [it'|] eqn:Hk; [|split; [done|by intros [? _]]].
    unfold still_valid, IsZero, Before.
    destruct (decide (ExpiresAt it' = 0)) as [Hz|Hz].
    + rewrite bool_decide_eq_true_2 by done. cbn.
      split; [intros [= <-]; auto|by intros [? _]].
    + rewrite bool_decide_eq_false_2 by done. cbn.
      case_bool_decide as Hb.
      * split; [done|]. intros [[= <-] [?|?]]; [done|lia].
      * split; [intros [= <-]; split; [done|right; lia]|by intros [? _]].
Qed.

(** The original [Size] returns the number of keys (0 for a nil map) and
    writes that number to standard output on every call; called on a store
    value whose [mu] is held it waits forever. *)
Theorem Size_prints_the_size s m c :
  table s m = Some c ->
  (mu s = Free ->
   Size s m =
     Done (Z.of_nat (size c),
           set_stdout (fun o => (o ++ [Z.of_nat (size c)])%list) m)) /\
  (mu s <> Free -> Size s m = Blocked).
Proof.
  intros Ht. destruct s as [l1 d l2 ks]. unfold table in Ht. cbn in Ht.
  split.
  - cbn. intros ->.
    unfold Size. destruct d as [l|]; go2.
    + by rewrite Ht.
    + by injection Ht as <-.
  - cbn. intros Hl. unfold Size, method, bind, mu_on, on_field. cbn.
    by destruct l1.
Qed.

(** The original [Delete] and [GetViews] take no lock of the store and work
    on the shared table: [GetViews] returns the stored counter (0 for a
    missing key), and after [Delete] the key is gone from the table every
    copy of the store sees. *)
Theorem Delete_reaches_shared_table key s m c :
  table s m = Some c ->
  GetViews key s m =
    Done (match c !! key with Some it => Views it | None => 0 end, m) /\
  exists m',
    Delete key s m = Done (tt, m') /\
    table s m' = Some (delete key c) /\
    stdout m' = stdout m /\
    GetViews key s m' = Done (0, m').
Proof.
  intros Ht. destruct s as [l1 d l2 ks]. unfold table in *. cbn in Ht.
  destruct d as [l|].
  - split.
    + unfold GetViews. go2. rewrite Ht. by destruct (c !! key).
    + exists (set_maps (insert l (delete key c)) m).
      assert (Hm' : maps (set_maps (insert l (delete key c)) m) !! l
                    = Some (delete key c)).
      { destruct m. cbn. apply lookup_insert_eq. }
      split; [|split; [exact Hm'|split; [by destruct m|]]].
      * by apply Delete_table.
      * unfold GetViews. go2. rewrite lookup_insert_eq.
        by rewrite lookup_delete_eq.
  - injection Ht as <-. split; [reflexivity|]. exists m.
    split; [reflexivity|]. split; [by rewrite delete_empty|].
    split; reflexivity.
Qed.

(** The original [RetrieveLastKey] on an empty stack returns the empty
    string and deletes the entry stored under the empty key. *)
Theorem RetrieveLastKey_on_empty_stack_deletes_empty_key s m c :
  lastKeys s = [] -> table s m = Some c ->
  exists m',
    RetrieveLastKey s m = Done ("", m') /\
    table s m' = Some (delete "" c) /\
    forall l, data s <> Some l -> maps m' !! l = maps m !! l.
Proof.
  intros Hk Ht.
  assert (Hstep : forall m', Delete "" s m = Done (tt, m') ->
                             RetrieveLastKey s m = Done ("", m')).
  { intros m' Hdel. unfold RetrieveLastKey, method, bind, call, ret.
    cbv beta iota. rewrite (top_empty s m Hk). cbv beta iota.
    rewrite (pop_empty s m Hk). cbv beta iota. by rewrite Hdel. }
  unfold table in Ht. destruct (data s) as [l|] eqn:Hd.
  - exists (set_maps (insert l (delete "" c)) m). split; [|split].
    + apply Hstep. by apply Delete_table.
    + unfold table. rewrite Hd. destruct m. cbn. apply lookup_insert_eq.
    + intros l' Hne. destruct m. cbn. apply lookup_insert_ne. congruence.
  - injection Ht as <-. exists m. split; [|split].
    + apply Hstep. by apply Delete_nil.
    + unfold table. rewrite Hd. by rewrite delete_empty.
    + done.
Qed.

(** The original [Reset] leaves every table as it is: any store value sees
    after it what it saw before. *)
Theorem Reset_changes_no_table s m :
  allocated_below_brk m ->
  exists m',
    Reset s m = Done (tt, m') /\ stdout m' = stdout m /\
    forall s' c, table s' m = Some c -> table s' m' = Some c.
Proof.
  intros Ha. eexists. split; [reflexivity|]. split; [by destruct m|].
  intros s' c. unfold table. destruct (data s') as [l|]; [|done].
  intros Hl. cbn. rewrite lookup_insert_ne; [done|].
  intros <-. pose proof (Ha (brk m) (mk_is_Some _ _ Hl)). lia.
Qed.

(** The original [top] reads the stack at the size of the table minus one:
    it returns that element when the index is inside the stack and panics
    otherwise; on an empty stack it returns the empty string. *)
Theorem top_reads_at_table_size s m c :
  table s m = Some c ->
  (lastKeys s = [] -> top s m = Done ("", m)) /\
  (lastKeys s <> [] -> stackMutex s = Unlocked ->
   top s m =
     if bool_decide (1 <= size c <= length (lastKeys s))%nat
     then Done (default "" (lastKeys s !! (size c - 1)%nat), m)
     else Panic).
Proof.
  intros Ht. destruct s as [l1 d l2 ks]. cbn [lastKeys stackMutex].
  split.
  - intros ->. reflexivity.
  - intros Hne ->. unfold table in Ht. cbn [data] in Ht.
    unfold top. go2.
    rewrite bool_decide_eq_false_2 by (by destruct ks). go2.
    assert (Hidx : forall fr,
      index ks (Z.of_nat (size c) - 1) fr =
        if bool_decide (1 <= size c <= length ks)%nat
        then Done (default "" (ks !! (size c - 1)%nat), fr)
        else Panic).
    { intros fr. unfold index. case_bool_decide as Hi.
      - rewrite bool_decide_eq_true_2 by lia.
        replace (Z.to_nat (Z.of_nat (size c) - 1)) with (size c - 1)%nat
          by lia.
        destruct (ks !! (size c - 1)%nat) as [k|] eqn:Hk; [reflexivity|].
        apply lookup_ge_None in Hk. lia.
      - rewrite bool_decide_eq_false_2 by lia. reflexivity. }
    destruct d as [l|]; [rewrite Ht|injection Ht as <-]; rewrite Hidx;
      case_bool_decide; reflexivity.
Qed.

(** On an initialised table and with a free stack lock, the original [Set]
    stores the entry in the shared table, with no views and with [ttl]
    seconds of life (none for [ttl <= 0]), as long as the seconds fit in an
    [int64] of nanoseconds. *)
Theorem Set_writes_shared_table key value ttl now s m l c :
  data s = Some l -> maps m !! l = Some c -> stackMutex s = Unlocked ->
  ttl <= 9223372036 ->
  exists m',
    Set_ key value ttl now s m = Done (tt, m') /\
    table s m' =
      Some (<[key := {| Value := value;
                        ExpiresAt := if bool_decide (0 < ttl)
                                     then now + ttl * 1000000000 else 0;
                        Views := 0 |}]> c) /\
    GetViews key s m' = Done (0, m').
Proof.
  intros Hd Hm Hst Httl. destruct s as [l1 d l2 ks]. cbn in Hd, Hst. subst.
  eexists. split; [|split].
  - unfold Set_, method, under_local_Mutex, bind, data_assign, self, gets,
      map_contents, modify, call, push, method, push_body, bind,
      stackMutex_on, on_field, self_set, modify. cbn. rewrite Hm. cbn.
    reflexivity.
  - unfold table, set_maps. cbn [data maps]. rewrite lookup_insert_eq.
    do 3 f_equal.
    case_bool_decide; [|done]. unfold Add, wrap_i64, Second.
    f_equal. rewrite Z.mod_small by lia. lia.
  - unfold GetViews. go2. rewrite lookup_insert_eq.
    by rewrite lookup_insert_eq.
Qed.

(** ** The statements of this part at concrete inputs *)

Lemma Cleanup_pass_keeps_expired_only_witness :
  exists c',
    Cleanup_pass (fun _ => 100) (store_with [])
      (mem_with {[ "fresh" := item "v" 200; "stale" := item "w" 50 ]})
    = Done (tt, set_maps (insert 1%positive c')
                  (mem_with {[ "fresh" := item "v" 200;
                               "stale" := item "w" 50 ]})) /\
    forall k it,
      c' !! k = Some it <->
      ({[ "fresh" := item "v" 200; "stale" := item "w" 50 ]}
         : gmap string Item) !! k = Some it /\
      (ExpiresAt it = 0 \/ ExpiresAt it <= 100).
Proof.
  apply (Cleanup_pass_keeps_expired_only (fun _ => 100) (store_with [])
           (mem_with {[ "fresh" := item "v" 200; "stale" := item "w" 50 ]})
           1%positive {[ "fresh" := item "v" 200; "stale" := item "w" 50 ]}).
  - reflexivity.
  - vm_compute. reflexivity.
Defined.

Lemma Size_prints_the_size_witness :
  (mu (store_with ["a"]) = Free ->
   Size (store_with ["a"]) (mem_with {[ "a" := item "1" 0 ]}) =
     Done (Z.of_nat (size ({[ "a" := item "1" 0 ]} : gmap string Item)),
           set_stdout
             (fun o => (o ++ [Z.of_nat
                (size ({[ "a" := item "1" 0 ]} : gmap string Item))])%list)
             (mem_with {[ "a" := item "1" 0 ]}))) /\
  (mu (store_with ["a"]) <> Free ->
   Size (store_with ["a"]) (mem_with {[ "a" := item "1" 0 ]}) = Blocked).
Proof.
  apply (Size_prints_the_size (store_with ["a"])
           (mem_with {[ "a" := item "1" 0 ]}) {[ "a" := item "1" 0 ]}).
  vm_compute. reflexivity.
Defined.

Lemma Delete_reaches_shared_table_witness :
  GetViews "a" (store_with []) (mem_with {[ "a" := item "1" 0 ]}) =
    Done (match ({[ "a" := item "1" 0 ]} : gmap string Item) !! "a" with
          | Some it => Views it | None => 0 end,
          mem_with {[ "a" := item "1" 0 ]}) /\
  exists m',
    Delete "a" (store_with []) (mem_with {[ "a" := item "1" 0 ]})
      = Done (tt, m') /\
    table (store_with []) m' = Some (delete "a" {[ "a" := item "1" 0 ]}) /\
    stdout m' = stdout (mem_with {[ "a" := item "1" 0 ]}) /\
    GetViews "a" (store_with []) m' = Done (0, m').
Proof.
  apply (Delete_reaches_shared_table "a" (store_with [])
           (mem_with {[ "a" := item "1" 0 ]}) {[ "a" := item "1" 0 ]}).
  vm_compute. reflexivity.
Defined.

Lemma RetrieveLastKey_on_empty_stack_deletes_empty_key_witness :
  exists m',
    RetrieveLastKey (store_with []) (mem_with {[ "" := item "1" 0 ]})
      = Done ("", m') /\
    table (store_with []) m' = Some (delete "" {[ "" := item "1" 0 ]}) /\
    forall l, data (store_with []) <> Some l ->
              maps m' !! l = maps (mem_with {[ "" := item "1" 0 ]}) !! l.
Proof.
  apply (RetrieveLastKey_on_empty_stack_deletes_empty_key (store_with [])
           (mem_with {[ "" := item "1" 0 ]}) {[ "" := item "1" 0 ]}).
  - reflexivity.
  - vm_compute. reflexivity.
Defined.

Lemma allocated_mem_with c : allocated_below_brk (mem_with c).
Proof.
  intros l [x H]. cbn in *. apply lookup_singleton_Some in H as [<- _]. lia.
Qed.

Lemma Reset_changes_no_table_witness :
  exists m',
    Reset (store_with ["a"]) (mem_with {[ "a" := item "1" 0 ]})
      = Done (tt, m') /\
    stdout m' = stdout (mem_with {[ "a" := item "1" 0 ]}) /\
    forall s' c,
      table s' (mem_with {[ "a" := item "1" 0 ]}) = Some c ->
      table s' m' = Some c.
Proof.
  apply (Reset_changes_no_table (store_with ["a"])
           (mem_with {[ "a" := item "1" 0 ]})).
  apply allocated_mem_with.
Defined.

Lemma top_reads_at_table_size_witness :
  (lastKeys (store_with ["a"; "b"]) = [] ->
   top (store_with ["a"; "b"]) (mem_with {[ "x" := item "1" 0%Z ]})
     = Done ("", mem_with {[ "x" := item "1" 0%Z ]})) /\
  (lastKeys (store_with ["a"; "b"]) <> [] ->
   stackMutex (store_with ["a"; "b"]) = Unlocked ->
   top (store_with ["a"; "b"]) (mem_with {[ "x" := item "1" 0%Z ]}) =
     if bool_decide
          (1 <= size ({[ "x" := item "1" 0%Z ]} : gmap string Item)
             <= length (lastKeys (store_with ["a"; "b"])))%nat
     then Done (default ""
                  (lastKeys (store_with ["a"; "b"])
                     !! (size ({[ "x" := item "1" 0%Z ]} : gmap string Item)
                         - 1)%nat),
                mem_with {[ "x" := item "1" 0%Z ]})
     else Panic).
Proof.
  apply (top_reads_at_table_size (store_with ["a"; "b"])
           (mem_with {[ "x" := item "1" 0%Z ]}) {[ "x" := item "1" 0%Z ]}).
  vm_compute. reflexivity.
Defined.

Lemma Set_writes_shared_table_witness :
  exists m',
    Set_ "a" "1" 60 100 (store_with []) (mem_with ∅) = Done (tt, m') /\
    table (store_with []) m' =
      Some (<[ "a" := {| Value := "1";
                         ExpiresAt := if bool_decide (0 < 60)
                                      then 100 + 60 * 1000000000 else 0;
                         Views := 0 |}]> ∅) /\
    GetViews "a" (store_with []) m' = Done (0, m').
Proof.
  apply (Set_writes_shared_table "a" "1" 60 100 (store_with []) (mem_with ∅)
           1%positive ∅).
  - reflexivity.
  - vm_compute. reflexivity.
  - reflexivity.
  - lia.
Defined.

End V2Spec.
